(** * A round-robin HTTP load balancer: shallow embedding and properties

    Source: [loadbalancer/loadbalancer.go].

    The registry ([LoadBalancer.servers]) is a Go slice of [Server] values
    that is never re-sliced or appended to after [NewLoadBalancer]; the
    pointers [&lb.servers[i]] that the Go code hands around are modelled as
    the index [i] into that slice, so that a [SetHealth] through such a
    pointer is an in-place update of the registry.  The rotation counter is
    a [uint64], modelled as a [Z] with the wrap-around of
    [atomic.AddUint64] written out.  The network (liveness probes and the
    reverse proxy) and the clock are parameters of the operations that use
    them.  Every operation returns the trace of the observable effects it
    performed ([SetHealth] commits, log lines, outbound requests). *)

From Stdlib Require Import ZArith Lia.
From stdpp Require Import base list strings gmap.

Local Open Scope string_scope.
Local Open Scope list_scope.
Local Open Scope nat_scope.

(** ** Data model *)

(** [type Server struct { URL *url.URL; Healthy bool; mutex sync.RWMutex }].
    The URL is kept as the string it was parsed from; the mutex only
    serialises accesses to [Healthy] and has no sequential content. *)
Record Server : Type := mkServer {
  URL : string;
  Healthy : bool;
}.

(** [type LoadBalancer struct { servers []Server; current uint64 }] *)
Record LoadBalancer : Type := mkLoadBalancer {
  servers : list Server;
  current : Z;
}.

#[global] Instance Server_eq_dec : EqDecision Server.
Proof. solve_decision. Defined.

Definition uint64_modulus : Z := 2 ^ 64.

(** A counter value that fits the [uint64] field. *)
Definition is_uint64 (c : Z) : Prop := (0 ≤ c < uint64_modulus)%Z.

(** [atomic.AddUint64(&c, delta)]: the new value, wrapped to 64 bits. *)
Definition AddUint64 (c delta : Z) : Z := ((c + delta) mod uint64_modulus)%Z.

(** [func (s *Server) SetHealth(healthy bool)] *)
Definition SetHealth (healthy : bool) (s : Server) : Server :=
  {| URL := URL s; Healthy := healthy |}.

(** [func (s *Server) IsHealthy() bool] *)
Definition IsHealthy (s : Server) : bool := Healthy s.

(** [lb.servers[i].SetHealth(healthy)], through a pointer [&lb.servers[i]]. *)
Definition set_health_at (i : nat) (healthy : bool) (lb : LoadBalancer)
  : LoadBalancer :=
  {| servers := alter (SetHealth healthy) i (servers lb);
     current := current lb |}.

(** [func NewLoadBalancer() *LoadBalancer] *)
Definition NewLoadBalancer : LoadBalancer :=
  {| servers := [ mkServer "http://host.docker.internal:8081" true;
                  mkServer "http://host.docker.internal:8082" true;
                  mkServer "http://host.docker.internal:8083" true ];
     current := 0 |}.

(** ** Selection *)

(** The loop of [GetNextServer]:
    [for i := range lb.servers { if lb.servers[i].IsHealthy() {
       healthyServers = append(healthyServers, &lb.servers[i]) } }],
    started at index [i] on the remaining records [l]. *)
Fixpoint healthy_from (i : nat) (l : list Server) : list nat :=
  match l with
  | [] => []
  | s :: l' =>
      if IsHealthy s then i :: healthy_from (S i) l'
      else healthy_from (S i) l'
  end.

Definition healthyServers (lb : LoadBalancer) : list nat :=
  healthy_from 0 (servers lb).

(** Outcome of [GetNextServer]: a pointer into the registry, the error
    value, or the run-time panic of an out-of-range slice index. *)
Inductive Selection : Type :=
| Selected (i : nat)
| SelectError (msg : string)
| IndexPanic.

(** [func (lb *LoadBalancer) GetNextServer()], returning a [Server] pointer and an [error] *)
Definition GetNextServer (lb : LoadBalancer) : Selection * LoadBalancer :=
  let hs := healthyServers lb in
  if Nat.eqb (length hs) 0 then
    (SelectError "no healthy servers available", lb)
  else
    let next := AddUint64 (current lb) 1 in
    let lb' := {| servers := servers lb; current := next |} in
    match hs !! Z.to_nat (next mod Z.of_nat (length hs)) with
    | Some i => (Selected i, lb')
    | None => (IndexPanic, lb')
    end.

(** The healthy sublist of the registry, in registry order. *)
Definition healthy_records (lb : LoadBalancer) : list Server :=
  filter (λ s, IsHealthy s = true) (servers lb).

(** [n] consecutive calls of [GetNextServer]; the outcomes in call order. *)
Fixpoint select_n (n : nat) (lb : LoadBalancer)
  : list Selection * LoadBalancer :=
  match n with
  | O => ([], lb)
  | S n' =>
      let '(r, lb1) := GetNextServer lb in
      let '(rs, lb2) := select_n n' lb1 in
      (r :: rs, lb2)
  end.

(** ** Observable effects *)

(** The [log.Printf] / [log.Println] calls of the balancer, one constructor
    per call site, carrying the formatted arguments. *)
Inductive LogLine : Type :=
| LogPerformingChecks                          (* HealthCheck, start of a cycle *)
| LogCheckFailed (url : string)                (* HealthCheck, probe error *)
| LogBackUp (url : string)                     (* HealthCheck, "is back up" *)
| LogDown (url : string)                       (* HealthCheck, "is down" *)
| LogStillUp (url : string)                    (* HealthCheck, "is still up" *)
| LogRouting (url : string)                    (* ServeHTTP, before the relay *)
| LogProxyError (url : string)                 (* proxy.ErrorHandler *)
| LogRequestCompleted (url : string) (code : Z). (* proxy.ModifyResponse *)

Inductive Event : Type :=
| EvLog (l : LogLine)
| EvSetHealth (i : nat) (healthy : bool)   (* servers[i].SetHealth(healthy) *)
| EvProbe (target : string)                (* client.Get(target) *)
| EvRelay (i : nat)                        (* proxy.ServeHTTP towards servers[i] *)
| EvSleep (seconds : Z).                   (* time.Sleep *)

Definition log_of (e : Event) : option LogLine :=
  match e with EvLog l => Some l | _ => None end.

Definition commit_of (e : Event) : option (nat * bool) :=
  match e with EvSetHealth i b => Some (i, b) | _ => None end.

Definition relay_of (e : Event) : option nat :=
  match e with EvRelay i => Some i | _ => None end.

(** The log lines, the [SetHealth] commits and the relay attempts of a
    trace, each in program order. *)
Definition log_lines (t : list Event) : list LogLine := omap log_of t.
Definition commits (t : list Event) : list (nat * bool) := omap commit_of t.
Definition relays (t : list Event) : list nat := omap relay_of t.

(** The log lines that announce a change of state, and the steady-state
    line. *)
Definition is_transition (l : LogLine) : bool :=
  match l with
  | LogCheckFailed _ | LogBackUp _ | LogDown _ => true
  | _ => false
  end.

Definition is_heartbeat (l : LogLine) : bool :=
  match l with LogStillUp _ => true | _ => false end.

(** ** Health monitor *)

(** Outcome of [client.Get]: [err != nil], or a response with its status. *)
Inductive ProbeResult : Type :=
| ProbeFailed
| ProbeStatus (code : Z).

(** The network as the monitor sees it in one cycle: the outcome of the
    request issued for the record at a given index, to a given target. *)
Definition Prober : Type := nat → string → ProbeResult.

Definition StatusOK : Z := 200.
Definition StatusServiceUnavailable : Z := 503.

(** [server.URL.String() + "/health"] *)
Definition probe_target (s : Server) : string := URL s +:+ "/health".

(** The flag that the loop body hands to [SetHealth]: [false] on the error
    path, [res.StatusCode == http.StatusOK] otherwise. *)
Definition classify (res : ProbeResult) : bool :=
  match res with
  | ProbeFailed => false
  | ProbeStatus code => Z.eqb code StatusOK
  end.

(** The body of the inner loop of [HealthCheck], on the record that
    [server := &lb.servers[i]] points to: the record as the body leaves it
    and the effects of the body, in program order. *)
Definition check_record (probe : Prober) (i : nat) (server : Server)
  : Server * list Event :=
  let res := probe i (probe_target server) in
  let wasHealthy := IsHealthy server in
  match res with
  | ProbeFailed =>
      (SetHealth false server,
       [EvProbe (probe_target server); EvSetHealth i false]
       ++ (if wasHealthy then [EvLog (LogCheckFailed (URL server))] else []))
  | ProbeStatus code =>
      let healthy := Z.eqb code StatusOK in
      (SetHealth healthy server,
       [EvProbe (probe_target server); EvSetHealth i healthy;
        EvLog (if negb wasHealthy && healthy then LogBackUp (URL server)
               else if wasHealthy && negb healthy then LogDown (URL server)
               else LogStillUp (URL server))])
  end.

(** [for i := range lb.servers { server := &lb.servers[i]; ... }], started
    at index [i] on the remaining records [l]; every iteration writes only
    to its own record. *)
Fixpoint check_from (probe : Prober) (i : nat) (l : list Server)
  : list Server * list Event :=
  match l with
  | [] => ([], [])
  | server :: l' =>
      let '(server', t1) := check_record probe i server in
      let '(l'', t2) := check_from probe (S i) l' in
      (server' :: l'', t1 ++ t2)
  end.

(** One iteration of the outer [for { ... }] of [HealthCheck]. *)
Definition HealthCheck_cycle (probe : Prober) (lb : LoadBalancer)
  : LoadBalancer * list Event :=
  let '(ss, t) := check_from probe 0 (servers lb) in
  ({| servers := ss; current := current lb |},
   EvLog LogPerformingChecks :: t ++ [EvSleep 30]).

(** A single iteration of the inner loop, for the record at index [i], as
    an operation on the balancer. *)
Definition check_server (probe : Prober) (i : nat) (lb : LoadBalancer)
  : LoadBalancer * list Event :=
  match servers lb !! i with
  | None => (lb, [])
  | Some server =>
      let '(server', t) := check_record probe i server in
      ({| servers := <[i := server']> (servers lb); current := current lb |},
       t)
  end.

(** [HealthCheck] never returns; its behaviour is the limit of its finite
    prefixes, one [Prober] per cycle run so far. *)
Fixpoint HealthCheck (probes : list Prober) (lb : LoadBalancer)
  : LoadBalancer * list Event :=
  match probes with
  | [] => (lb, [])
  | p :: ps =>
      let '(lb1, t1) := HealthCheck_cycle p lb in
      let '(lb2, t2) := HealthCheck ps lb1 in
      (lb2, t1 ++ t2)
  end.

(** ** Forwarder and status reporter *)

Record Request : Type := mkRequest {
  Method : string;
  Path : string;
  RequestBody : string;
}.

(** [type StatusResponse struct]; the timestamp is the clock reading. *)
Record StatusResponse : Type := mkStatusResponse {
  StatusLoadBalancer : string;
  StatusServers : list Server;
  StatusAlgorithm : string;
  StatusTimestamp : Z;
}.

Inductive Payload : Type :=
| PlainText (s : string)
| StatusJSON (st : StatusResponse)
| Upstream (raw : string).

Record Response : Type := mkResponse {
  StatusCode : Z;
  ContentType : string;
  Body : Payload;
}.

(** Outcome of the reverse proxy's round trip to the backend: a transport
    error (the [ErrorHandler] runs) or the backend's response. *)
Inductive RelayResult : Type :=
| RelayFailed
| RelayDone (resp : Response).

Definition Relay : Type := string → Request → RelayResult.

Definition newline : string := String (Ascii.ascii_of_nat 10) EmptyString.

(** [http.Error(w, msg, code)] *)
Definition http_Error (msg : string) (code : Z) : Response :=
  {| StatusCode := code;
     ContentType := "text/plain; charset=utf-8";
     Body := PlainText (msg +:+ newline) |}.

(** [func (lb *LoadBalancer) handleStatus(w, r)] *)
Definition handleStatus (now : Z) (lb : LoadBalancer)
  : Response * LoadBalancer :=
  let status := {| StatusLoadBalancer := "active";
                   StatusServers := servers lb;
                   StatusAlgorithm := "round-robin";
                   StatusTimestamp := now |} in
  ({| StatusCode := StatusOK;
      ContentType := "application/json";
      Body := StatusJSON status |}, lb).

(** [func (lb *LoadBalancer) ServeHTTP(w, r)].  [None] is a handler that
    panicked before writing a response. *)
Definition ServeHTTP (relay : Relay) (now : Z) (r : Request)
    (lb : LoadBalancer) : option Response * LoadBalancer * list Event :=
  if String.eqb (Path r) "/lb-status" then
    let '(resp, lb') := handleStatus now lb in (Some resp, lb', [])
  else
    match GetNextServer lb with
    | (SelectError msg, lb1) =>
        (Some (http_Error ("Service Unavailable: " +:+ msg)
                          StatusServiceUnavailable), lb1, [])
    | (IndexPanic, lb1) => (None, lb1, [])
    | (Selected i, lb1) =>
        match servers lb1 !! i with
        | None => (None, lb1, [])
        | Some server =>
            match relay (URL server) r with
            | RelayFailed =>
                (Some (http_Error "Service Temporarily Unavailable"
                                  StatusServiceUnavailable),
                 set_health_at i false lb1,
                 [EvLog (LogRouting (URL server)); EvRelay i;
                  EvLog (LogProxyError (URL server)); EvSetHealth i false])
            | RelayDone resp =>
                (Some resp, lb1,
                 [EvLog (LogRouting (URL server)); EvRelay i;
                  EvLog (LogRequestCompleted (URL server) (StatusCode resp))])
            end
        end
    end.

(** ** Operations of the balancer, as seen from outside *)

Inductive Op : Type :=
| OpSelect                                        (* a bare GetNextServer *)
| OpCheck (probe : Prober) (i : nat)              (* the monitor probes one record *)
| OpCycle (probe : Prober)                        (* a whole monitor cycle *)
| OpServe (relay : Relay) (now : Z) (r : Request) (* an inbound request *).

Definition step (op : Op) (lb : LoadBalancer) : LoadBalancer * list Event :=
  match op with
  | OpSelect => ((GetNextServer lb).2, [])
  | OpCheck probe i => check_server probe i lb
  | OpCycle probe => HealthCheck_cycle probe lb
  | OpServe relay now r =>
      let '(_, lb', t) := ServeHTTP relay now r lb in (lb', t)
  end.

Fixpoint run (ops : list Op) (lb : LoadBalancer)
  : LoadBalancer * list Event :=
  match ops with
  | [] => (lb, [])
  | op :: ops' =>
      let '(lb1, t1) := step op lb in
      let '(lb2, t2) := run ops' lb1 in
      (lb2, t1 ++ t2)
  end.

(** The endpoints of the registry, in order. *)
Definition endpoints (lb : LoadBalancer) : list string := URL <$> servers lb.

(** ** Properties of selections, stated on the operations above *)

(** The position that the healthy sublist would be read at if the counter
    were an unbounded integer: [(c + 1) mod m] for the prior value [c]. *)
Definition selects_successor_position (lb : LoadBalancer) : Prop :=
  ∃ i lb',
    GetNextServer lb = (Selected i, lb')
    ∧ servers lb !! i
      = healthy_records lb
          !! Z.to_nat ((current lb + 1)
                       mod Z.of_nat (length (healthy_records lb))).

#[global] Instance Selection_eq_dec : EqDecision Selection.
Proof. solve_decision. Defined.

(** How many of the outcomes [rs] selected the record at index [i]. *)
Definition times_selected (i : nat) (rs : list Selection) : nat :=
  length (filter (λ r, r = Selected i) rs).

(** Each record is selected [⌊N/k⌋] or [⌈N/k⌉] times in [N] calls. *)
Definition evenly_spread (lb : LoadBalancer) (N : nat) : Prop :=
  let k := length (servers lb) in
  ∀ i, i < k →
    times_selected i (select_n N lb).1 = N / k
    ∨ times_selected i (select_n N lb).1 = (N + k - 1) / k.

(** The [N] calls walk the registry in order, one step per call: they
    return the records at the successive counter values [c + 1], [c + 2],
    ..., [c + N], each reduced modulo the registry length. *)
Definition rotates_from_counter (lb : LoadBalancer) (N : nat) : Prop :=
  let k := Z.of_nat (length (servers lb)) in
  (select_n N lb).1
  = (λ x, Selected (Z.to_nat (x mod k))) <$> seqZ (current lb + 1) (Z.of_nat N).

(** The registry of [NewLoadBalancer] with the counter at [c]. *)
Definition lb_at (c : Z) : LoadBalancer :=
  {| servers := servers NewLoadBalancer; current := c |}.

(** Number of integers in [[0, x)] that are congruent to [i] modulo [k]. *)
Definition below (k i x : Z) : Z := ((x + k - 1 - i) / k)%Z.

(** The record at index [j] exists and is marked unhealthy. *)
Definition down (j : nat) (lb : LoadBalancer) : Prop :=
  ∃ s, servers lb !! j = Some s ∧ IsHealthy s = false.

(** One log line per probed record and cycle: a transition line when the
    classification differs from the flag the record carried, the
    steady-state line when it repeats. *)
Definition logs_every_outcome (probe : Prober) (i : nat) (s : Server) : Prop :=
  let lines := log_lines (check_record probe i s).2 in
  if decide (classify (probe i (probe_target s)) = IsHealthy s)
  then ∃ l, lines = [l] ∧ is_heartbeat l = true
  else ∃ l, lines = [l] ∧ is_transition l = true.

(** A network in which the second backend refuses connections and the
    others answer 200. *)
Definition second_unreachable : Prober :=
  λ i _, if Nat.eqb i 1 then ProbeFailed else ProbeStatus 200.

(** A network in which every backend answers 200. *)
Definition all_reachable : Prober := λ _ _, ProbeStatus 200.

(** A reverse proxy whose every round trip fails at the transport level. *)
Definition relay_refused : Relay := λ _ _, RelayFailed.

Definition get_users : Request :=
  {| Method := "GET"; Path := "/api/users"; RequestBody := EmptyString |}.

Definition get_status : Request :=
  {| Method := "GET"; Path := "/lb-status"; RequestBody := EmptyString |}.

(** The registry of [NewLoadBalancer] with every record marked unhealthy. *)
Definition all_down : LoadBalancer :=
  {| servers := SetHealth false <$> servers NewLoadBalancer; current := 7 |}.

(** The registry of [NewLoadBalancer] after the second backend has been
    marked unhealthy. *)
Definition second_down : LoadBalancer := set_health_at 1 false NewLoadBalancer.

(** ** Further observations on traces and selections *)

Definition probe_of (e : Event) : option string :=
  match e with EvProbe target => Some target | _ => None end.

Definition sleep_of (e : Event) : option Z :=
  match e with EvSleep seconds => Some seconds | _ => None end.

(** The targets of the [client.Get] calls and the [time.Sleep] durations
    of a trace, in program order. *)
Definition probes_issued (t : list Event) : list string := omap probe_of t.
Definition sleeps (t : list Event) : list Z := omap sleep_of t.

Definition selected_index (r : Selection) : option nat :=
  match r with Selected i => Some i | _ => None end.

(** [healthyServers[x % uint64(len(healthyServers))]] for a healthy view
    [hs] that is not empty. *)
Definition pick (hs : list nat) (x : Z) : nat :=
  default 0 (hs !! Z.to_nat (x mod Z.of_nat (length hs))).

(** An inbound request on a path other than the status path, relayed by a
    proxy whose round trip completes. *)
Definition relayed_ok (op : Op) : Prop :=
  match op with
  | OpServe relay now r =>
      Path r ≠ "/lb-status" ∧ ∀ url, ∃ resp, relay url r = RelayDone resp
  | _ => False
  end.

(** An inbound request on a path other than the status path, relayed by a
    proxy whose round trip fails at the transport level. *)
Definition relay_fails (op : Op) : Prop :=
  match op with
  | OpServe relay now r =>
      Path r ≠ "/lb-status" ∧ ∀ url, relay url r = RelayFailed
  | _ => False
  end.

(** A backend that answers every relayed request with status 500. *)
Definition relay_backend_error : Relay :=
  λ _ _, RelayDone {| StatusCode := 500;
                      ContentType := "text/plain; charset=utf-8";
                      Body := Upstream "internal error" |}.

(** The registry of [NewLoadBalancer] with only the third backend healthy,
    and the counter one step before it wraps. *)
Definition only_third_up : LoadBalancer :=
  {| servers := [ mkServer "http://host.docker.internal:8081" false;
                  mkServer "http://host.docker.internal:8082" false;
                  mkServer "http://host.docker.internal:8083" true ];
     current := 2 ^ 64 - 1 |}.

(** ** Configuration of the API service ([api/user_api.go], [main.go]) *)

(** [os.Getenv(key)] on the process environment [env]: the value of the
    variable, the empty string when it is not set. *)
Definition Getenv (env : gmap string string) (key : string) : string :=
  default EmptyString (env !! key).

(** [func getEnv(key, defaultValue string) string] *)
Definition getEnv (env : gmap string string) (key defaultValue : string)
  : string :=
  let value := Getenv env key in
  if negb (String.eqb value EmptyString) then value else defaultValue.

(** An environment that sets the instance name and the port. *)
Definition container_env : gmap string string :=
  <["INSTANCE_NAME" := "api-service-1"]> (<["PORT" := "8080"]> ∅).

(** Every successful selection leaves the counter at the prior value
    plus one. *)
Definition advances_by_one (lb : LoadBalancer) : Prop :=
  ∀ i lb', GetNextServer lb = (Selected i, lb') →
           current lb' = (current lb + 1)%Z.

(** With several healthy records, a successful selection moves the
    round-robin position: the next successful selection returns another
    record. *)
Definition position_advances (lb : LoadBalancer) : Prop :=
  ∀ i lb1 i' lb2,
    2 ≤ length (healthy_records lb) →
    GetNextServer lb = (Selected i, lb1) →
    GetNextServer lb1 = (Selected i', lb2) →
    i ≠ i'.

(** ** Lemmas on the healthy view *)

Section HealthyView.

Lemma healthy_from_lookup (l : list Server) :
  ∀ i k j, healthy_from i l !! k = Some j →
    i ≤ j ∧ l !! (j - i) = filter (λ s, IsHealthy s = true) l !! k
    ∧ is_Some (l !! (j - i)).
Proof.
  induction l as [|s l IH]; intros i k j Hk; [done|].
  simpl in Hk. rewrite filter_cons.
  destruct (IsHealthy s) eqn:Hs.
  - rewrite decide_True; [|done].
    destruct k as [|k]; simpl in Hk.
    + inversion Hk; subst. rewrite Nat.sub_diag. simpl. eauto.
    + destruct (IH _ _ _ Hk) as (Hle & Heq & Hsome).
      replace (j - i) with (S (j - S i)) by lia. simpl.
      split; [lia|]. split; done.
  - rewrite decide_False; [|done].
    destruct (IH _ _ _ Hk) as (Hle & Heq & Hsome).
    replace (j - i) with (S (j - S i)) by lia. simpl.
    split; [lia|]. split; done.
Qed.

Lemma healthy_from_length (l : list Server) :
  ∀ i, length (healthy_from i l)
       = length (filter (λ s, IsHealthy s = true) l).
Proof.
  induction l as [|s l IH]; intros i; [done|].
  simpl. rewrite filter_cons. destruct (IsHealthy s) eqn:Hs.
  - rewrite decide_True; [|done]. simpl. by rewrite IH.
  - rewrite decide_False; [|done]. apply IH.
Qed.

Lemma healthy_from_all_true (l : list Server) :
  Forall (λ s, IsHealthy s = true) l →
  ∀ i, healthy_from i l = seq i (length l).
Proof.
  induction 1 as [|s l Hs _ IH]; intros i; [done|].
  simpl. rewrite Hs. by rewrite IH.
Qed.

Lemma healthy_from_all_false (l : list Server) :
  Forall (λ s, IsHealthy s = false) l →
  ∀ i, healthy_from i l = [].
Proof.
  induction 1 as [|s l Hs _ IH]; intros i; [done|].
  simpl. rewrite Hs. apply IH.
Qed.

Lemma healthyServers_lookup lb k j :
  healthyServers lb !! k = Some j →
  servers lb !! j = healthy_records lb !! k ∧ is_Some (servers lb !! j).
Proof.
  intros Hk. apply healthy_from_lookup in Hk as (_ & Heq & Hsome).
  rewrite Nat.sub_0_r in Heq, Hsome. done.
Qed.

Lemma healthyServers_length lb :
  length (healthyServers lb) = length (healthy_records lb).
Proof. apply healthy_from_length. Qed.

Lemma healthyServers_healthy lb k j :
  healthyServers lb !! k = Some j →
  ∃ s, servers lb !! j = Some s ∧ IsHealthy s = true.
Proof.
  intros Hk. destruct (healthyServers_lookup _ _ _ Hk) as [Heq [s Hs]].
  exists s. split; [done|].
  rewrite Heq in Hs. apply list_elem_of_lookup_2 in Hs.
  unfold healthy_records in Hs. by apply list_elem_of_filter in Hs as [? _].
Qed.

End HealthyView.

(** ** The rotation counter and the selector *)

Section Selector.

Lemma AddUint64_range c d : is_uint64 (AddUint64 c d).
Proof.
  unfold is_uint64, AddUint64, uint64_modulus.
  apply Z.mod_pos_bound. lia.
Qed.

Lemma AddUint64_no_wrap c :
  is_uint64 c → c ≠ (uint64_modulus - 1)%Z → AddUint64 c 1 = (c + 1)%Z.
Proof.
  unfold is_uint64, AddUint64. intros Hc Hne.
  apply Z.mod_small. lia.
Qed.

Lemma healthyServers_nonempty lb :
  (∃ s, s ∈ servers lb ∧ IsHealthy s = true) → healthyServers lb ≠ [].
Proof.
  intros (s & Hin & Hs) Hnil.
  assert (Hlen : length (healthy_records lb) = 0)
    by (rewrite <- healthyServers_length, Hnil; done).
  apply length_zero_iff_nil in Hlen.
  assert (Hmem : s ∈ healthy_records lb)
    by (unfold healthy_records; apply list_elem_of_filter; done).
  rewrite Hlen in Hmem. by apply not_elem_of_nil in Hmem.
Qed.

Lemma GetNextServer_empty lb :
  healthyServers lb = [] →
  GetNextServer lb = (SelectError "no healthy servers available", lb).
Proof. intros Hnil. unfold GetNextServer. by rewrite Hnil. Qed.

Lemma GetNextServer_nonempty lb :
  healthyServers lb ≠ [] →
  ∃ i, healthyServers lb
         !! Z.to_nat (AddUint64 (current lb) 1
                      mod Z.of_nat (length (healthyServers lb))) = Some i
     ∧ GetNextServer lb
       = (Selected i, {| servers := servers lb;
                         current := AddUint64 (current lb) 1 |}).
Proof.
  intros Hne. unfold GetNextServer.
  destruct (healthyServers lb) as [|h hs] eqn:Hhs; [done|].
  set (m := length (h :: hs)).
  assert (Hm : (0 < Z.of_nat m)%Z) by (subst m; simpl; lia).
  destruct (Nat.eqb_spec m 0) as [Hz|_]; [lia|].
  pose proof (Z.mod_pos_bound (AddUint64 (current lb) 1) _ Hm) as Hb.
  destruct (lookup_lt_is_Some_2 (h :: hs)
              (Z.to_nat (AddUint64 (current lb) 1 mod Z.of_nat m)))
    as [i Hi]; [fold m; lia|].
  exists i. by rewrite Hi.
Qed.

Lemma GetNextServer_selected lb i lb' :
  GetNextServer lb = (Selected i, lb') →
  ∃ s, servers lb !! i = Some s ∧ IsHealthy s = true.
Proof.
  unfold GetNextServer.
  destruct (length (healthyServers lb) =? 0); [done|].
  destruct (healthyServers lb !! _) as [j|] eqn:Hj; [|done].
  intros [= <- _]. by eapply healthyServers_healthy.
Qed.

Lemma GetNextServer_servers lb : servers (GetNextServer lb).2 = servers lb.
Proof.
  unfold GetNextServer.
  destruct (length (healthyServers lb) =? 0); [done|].
  by destruct (healthyServers lb !! _).
Qed.

End Selector.

(** C1 (as amended).  With at least one healthy record, [GetNextServer]
    succeeds, stores the counter incremented by one as a [uint64], and
    returns the record found at position [next mod m] of the healthy
    sublist (registry order), where [next = (c + 1) mod 2^64] is the stored
    value and [m] the number of healthy records.  Whenever the prior value
    [c] is below [2^64 - 1] that position is [(c + 1) mod m]. *)
Theorem GetNextServer_round_robin lb :
  (∃ s, s ∈ servers lb ∧ IsHealthy s = true) →
  let m := Z.of_nat (length (healthy_records lb)) in
  let next := AddUint64 (current lb) 1 in
  ∃ i,
    GetNextServer lb
    = (Selected i, {| servers := servers lb; current := next |})
    ∧ is_Some (servers lb !! i)
    ∧ servers lb !! i = healthy_records lb !! Z.to_nat (next mod m)
    ∧ (is_uint64 (current lb) → current lb ≠ (uint64_modulus - 1)%Z →
       (next mod m = (current lb + 1) mod m)%Z
       ∧ selects_successor_position lb).
Proof.
  intros Hex m next.
  destruct (GetNextServer_nonempty lb (healthyServers_nonempty lb Hex))
    as (i & Hi & Hget).
  rewrite healthyServers_length in Hi. fold m next in Hi.
  destruct (healthyServers_lookup _ _ _ Hi) as [Heq Hsome].
  exists i. repeat split; try done.
  - subst next. by rewrite AddUint64_no_wrap.
  - exists i, {| servers := servers lb; current := next |}.
    split; [done|]. rewrite Heq. subst next m.
    by rewrite AddUint64_no_wrap.
Qed.

Lemma GetNextServer_round_robin_witness :
  ∃ i, GetNextServer (lb_at 4)
       = (Selected i, {| servers := servers (lb_at 4);
                         current := AddUint64 4 1 |})
     ∧ is_Some (servers (lb_at 4) !! i)
     ∧ servers (lb_at 4) !! i
       = healthy_records (lb_at 4)
           !! Z.to_nat (AddUint64 4 1
                        mod Z.of_nat (length (healthy_records (lb_at 4))))
     ∧ (is_uint64 4 → 4%Z ≠ (uint64_modulus - 1)%Z →
        (AddUint64 4 1 mod Z.of_nat (length (healthy_records (lb_at 4)))
         = (4 + 1) mod Z.of_nat (length (healthy_records (lb_at 4))))%Z
        ∧ selects_successor_position (lb_at 4)).
Proof.
  apply (GetNextServer_round_robin (lb_at 4)).
  exists (mkServer "http://host.docker.internal:8081" true).
  split; [|reflexivity].
  apply list_elem_of_here.
Defined.

(** C1 (as stated) fails when the counter holds [2^64 - 1]: the stored
    value wraps to [0], so with three healthy records the first one is
    returned, while [(c + 1) mod 3 = 1] designates the second. *)
Lemma GetNextServer_wrap_counterexample :
  (∃ s, s ∈ servers (lb_at (2 ^ 64 - 1)) ∧ IsHealthy s = true)
  ∧ GetNextServer (lb_at (2 ^ 64 - 1)) = (Selected 0, lb_at 0)
  ∧ ((2 ^ 64 - 1 + 1) mod 3 = 1)%Z
  ∧ ¬ selects_successor_position (lb_at (2 ^ 64 - 1)).
Proof.
  split.
  { exists (mkServer "http://host.docker.internal:8081" true).
    split; [apply list_elem_of_here | reflexivity]. }
  split; [by vm_compute|]. split; [by vm_compute|].
  intros (i & lb' & Hget & Hpos).
  vm_compute in Hget. injection Hget as <- <-.
  vm_compute in Hpos. discriminate Hpos.
Qed.

(** ** Rotation over a fully healthy registry *)

Section Rotation.

Variable k : Z.
Hypothesis k_pos : (0 < k)%Z.

Local Abbreviation below := (below k).

Lemma below_step i a :
  (0 ≤ a)%Z → (0 ≤ i < k)%Z →
  below i (a + 1) = if decide ((a mod k)%Z = i)
                    then (below i a + 1)%Z else below i a.
Proof using k_pos.
  intros Ha Hi. unfold below.
  replace (a + 1 + k - 1 - i)%Z with (a + k - i)%Z by lia.
  pose proof (Z.div_mod a k ltac:(lia)) as Hdm.
  pose proof (Z.mod_pos_bound a k k_pos) as Hr.
  set (q := (a / k)%Z) in *. set (r := (a mod k)%Z) in *.
  case_decide as Hc.
  - replace (a + k - i)%Z with ((q + 1) * k + 0)%Z by nia.
    replace (a + k - 1 - i)%Z with (q * k + (k - 1))%Z by nia.
    rewrite !Z.div_add_l by lia.
    rewrite Z.div_0_l by lia. rewrite (Z.div_small (k - 1) k) by lia. lia.
  - destruct (Z_lt_le_dec r i) as [Hlt|Hge].
    + replace (a + k - i)%Z with (q * k + (r + k - i))%Z by nia.
      replace (a + k - 1 - i)%Z with (q * k + (r + k - 1 - i))%Z by nia.
      rewrite !Z.div_add_l by lia.
      rewrite !Z.div_small by lia. done.
    + replace (a + k - i)%Z with ((q + 1) * k + (r - i))%Z by nia.
      replace (a + k - 1 - i)%Z with ((q + 1) * k + (r - 1 - i))%Z by nia.
      rewrite !Z.div_add_l by lia.
      rewrite !Z.div_small by lia. done.
Qed.

Lemma times_selected_window (i : nat) :
  (Z.of_nat i < k)%Z →
  ∀ (N : nat) (a : Z), (0 ≤ a)%Z →
    Z.of_nat (times_selected i
                ((λ x, Selected (Z.to_nat (x mod k))) <$> seqZ a (Z.of_nat N)))
    = (below (Z.of_nat i) (a + Z.of_nat N) - below (Z.of_nat i) a)%Z.
Proof using k_pos.
  intros Hi. induction N as [|N IH]; intros a Ha.
  - change (Z.of_nat 0) with 0%Z.
    rewrite Z.add_0_r, seqZ_nil by lia.
    unfold times_selected. rewrite fmap_nil, filter_nil. simpl. lia.
  - rewrite seqZ_cons by lia.
    replace (Z.pred (Z.of_nat (S N))) with (Z.of_nat N) by lia.
    replace (Z.succ a) with (a + 1)%Z by lia.
    rewrite fmap_cons. unfold times_selected in *.
    rewrite filter_cons.
    specialize (IH (a + 1)%Z ltac:(lia)).
    replace (a + 1 + Z.of_nat N)%Z with (a + Z.of_nat (S N))%Z in IH by lia.
    rewrite (below_step (Z.of_nat i) a) in IH by lia.
    pose proof (Z.mod_pos_bound a k k_pos) as Hr.
    repeat case_decide; cbn [length]; try lia; exfalso.
    all: match goal with
         | H : Selected _ = Selected _ |- _ => injection H as H; lia
         | H : Selected _ ≠ Selected _ |- _ => apply H; f_equal; lia
         end.
Qed.

Lemma below_window_spread (t N : Z) :
  (0 ≤ t)%Z → (0 ≤ N)%Z →
  let d := ((t + N) / k - t / k)%Z in
  d = (N / k)%Z ∨ d = ((N + k - 1) / k)%Z.
Proof using k_pos.
  intros Ht HN d. subst d.
  pose proof (Z.div_mod t k ltac:(lia)) as Ht1.
  pose proof (Z.mod_pos_bound t k k_pos) as Ht2.
  pose proof (Z.div_mod N k ltac:(lia)) as HN1.
  pose proof (Z.mod_pos_bound N k k_pos) as HN2.
  set (qt := (t / k)%Z) in *. set (rt := (t mod k)%Z) in *.
  set (qn := (N / k)%Z) in *. set (rn := (N mod k)%Z) in *.
  destruct (Z_lt_le_dec (rt + rn) k) as [Hlt|Hge].
  - left.
    replace (t + N)%Z with ((qt + qn) * k + (rt + rn))%Z by nia.
    rewrite Z.div_add_l by lia. rewrite Z.div_small by lia. lia.
  - right.
    replace (t + N)%Z with ((qt + qn + 1) * k + (rt + rn - k))%Z by nia.
    rewrite Z.div_add_l by lia. rewrite Z.div_small by lia.
    replace (N + k - 1)%Z with ((qn + 1) * k + (rn - 1))%Z by nia.
    rewrite Z.div_add_l by lia. rewrite Z.div_small by lia. lia.
Qed.

End Rotation.

Section AllHealthy.

Lemma GetNextServer_all_healthy lb :
  servers lb ≠ [] →
  Forall (λ s, IsHealthy s = true) (servers lb) →
  GetNextServer lb
  = (Selected (Z.to_nat (AddUint64 (current lb) 1
                         mod Z.of_nat (length (servers lb)))),
     {| servers := servers lb; current := AddUint64 (current lb) 1 |}).
Proof.
  intros Hne Hall.
  assert (Hhs : healthyServers lb = seq 0 (length (servers lb)))
    by (by apply healthy_from_all_true).
  destruct (GetNextServer_nonempty lb) as (i & Hi & Hget).
  { rewrite Hhs. destruct (servers lb); [done|]. simpl. discriminate. }
  rewrite Hhs, length_seq in Hi.
  apply lookup_seq in Hi as [-> _]. by rewrite Hget.
Qed.

Lemma select_n_all_healthy N :
  ∀ lb,
    servers lb ≠ [] →
    Forall (λ s, IsHealthy s = true) (servers lb) →
    is_uint64 (current lb) →
    (current lb + Z.of_nat N < uint64_modulus)%Z →
    select_n N lb
    = ((λ x, Selected (Z.to_nat (x mod Z.of_nat (length (servers lb)))))
         <$> seqZ (current lb + 1) (Z.of_nat N),
       {| servers := servers lb; current := (current lb + Z.of_nat N)%Z |}).
Proof.
  induction N as [|N IH]; intros lb Hne Hall Hc Hfit.
  - change (Z.of_nat 0) with 0%Z. rewrite seqZ_nil by lia.
    simpl. destruct lb as [ss c]. simpl. f_equal. f_equal. lia.
  - cbn [select_n]. rewrite GetNextServer_all_healthy by done.
    assert (Hnext : AddUint64 (current lb) 1 = (current lb + 1)%Z)
      by (apply AddUint64_no_wrap; unfold is_uint64 in *; lia).
    rewrite Hnext.
    rewrite IH; cbn [servers current]; try done; unfold is_uint64 in *;
      try lia.
    rewrite (seqZ_cons (current lb + 1) (Z.of_nat (S N))) by lia.
    replace (Z.pred (Z.of_nat (S N))) with (Z.of_nat N) by lia.
    replace (Z.succ (current lb + 1)) with (current lb + 1 + 1)%Z by lia.
    rewrite fmap_cons. f_equal. f_equal. lia.
Qed.

End AllHealthy.

(** C2 (as amended).  On a non-empty registry whose records are all
    healthy, [N] consecutive calls of [GetNextServer] during which the
    64-bit counter does not wrap ([c + N < 2^64]) select each record
    [⌊N/k⌋] or [⌈N/k⌉] times and walk the registry in order from the
    offset [(c + 1) mod k]; the counter ends at [c + N]. *)
Theorem select_n_even_rotation lb N :
  servers lb ≠ [] →
  Forall (λ s, IsHealthy s = true) (servers lb) →
  is_uint64 (current lb) →
  (current lb + Z.of_nat N < uint64_modulus)%Z →
  evenly_spread lb N
  ∧ rotates_from_counter lb N
  ∧ current (select_n N lb).2 = (current lb + Z.of_nat N)%Z.
Proof.
  intros Hne Hall Hc Hfit.
  pose proof (select_n_all_healthy N lb Hne Hall Hc Hfit) as Hsel.
  assert (Hk : (0 < Z.of_nat (length (servers lb)))%Z)
    by (destruct (servers lb); [done | simpl; lia]).
  split; [|split].
  - unfold evenly_spread. cbv zeta. intros i Hi.
    set (k := length (servers lb)) in *. rewrite Hsel. cbn [fst].
    pose proof (times_selected_window (Z.of_nat k) Hk i ltac:(lia) N
                  (current lb + 1)%Z ltac:(unfold is_uint64 in Hc; lia))
      as Hcount.
    unfold below in Hcount.
    set (t := (current lb + 1 + Z.of_nat k - 1 - Z.of_nat i)%Z) in *.
    replace (current lb + 1 + Z.of_nat N + Z.of_nat k - 1 - Z.of_nat i)%Z
      with (t + Z.of_nat N)%Z in Hcount by lia.
    destruct (below_window_spread (Z.of_nat k) Hk t (Z.of_nat N))
      as [Hd|Hd]; [unfold is_uint64 in Hc; lia | lia | |].
    + left. apply Nat2Z.inj. rewrite Hcount, Nat2Z.inj_div. exact Hd.
    + right. apply Nat2Z.inj. rewrite Hcount, Nat2Z.inj_div.
      rewrite Hd. f_equal. lia.
  - unfold rotates_from_counter. by rewrite Hsel.
  - by rewrite Hsel.
Qed.

Lemma select_n_even_rotation_witness :
  evenly_spread (lb_at 0) 6
  ∧ rotates_from_counter (lb_at 0) 6
  ∧ current (select_n 6 (lb_at 0)).2 = (0 + Z.of_nat 6)%Z.
Proof.
  apply (select_n_even_rotation (lb_at 0) 6).
  - discriminate.
  - repeat constructor.
  - unfold is_uint64, uint64_modulus. simpl. lia.
  - unfold uint64_modulus. simpl. lia.
Defined.

(** C2 (as stated) fails across the wrap of the counter: from [2^64 - 2],
    two calls on three healthy records both return the first record (the
    counter goes [2^64 - 1], then [0], and both are multiples of 3), which
    is selected twice where [⌊2/3⌋ = 0] and [⌈2/3⌉ = 1]. *)
Lemma select_n_wrap_counterexample :
  Forall (λ s, IsHealthy s = true) (servers (lb_at (2 ^ 64 - 2)))
  ∧ (select_n 2 (lb_at (2 ^ 64 - 2))).1 = [Selected 0; Selected 0]
  ∧ ¬ evenly_spread (lb_at (2 ^ 64 - 2)) 2
  ∧ ¬ rotates_from_counter (lb_at (2 ^ 64 - 2)) 2.
Proof.
  split; [repeat constructor|]. split; [by vm_compute|]. split.
  - intros Hspread. destruct (Hspread 0) as [H|H].
    + simpl. lia.
    + vm_compute in H. discriminate H.
    + vm_compute in H. discriminate H.
  - intros Hrot. vm_compute in Hrot. discriminate Hrot.
Qed.

(** The scenario of three healthy backends and six requests, from the
    initial counter [0]: the first selection lands on index 1. *)
Example six_requests_rotate :
  (select_n 6 NewLoadBalancer).1
  = [Selected 1; Selected 2; Selected 0; Selected 1; Selected 2; Selected 0].
Proof. reflexivity. Qed.

(** With the second backend down, requests alternate between the other
    two. *)
Example four_requests_skip_second :
  (select_n 4 second_down).1
  = [Selected 2; Selected 0; Selected 2; Selected 0].
Proof. reflexivity. Qed.

(** ** The health monitor *)

Section Monitor.

Variable probe : Prober.

Lemma classify_ok code : classify (ProbeStatus code) = true ↔ code = StatusOK.
Proof. simpl. apply Z.eqb_eq. Qed.

Lemma check_record_fst i s :
  (check_record probe i s).1
  = SetHealth (classify (probe i (probe_target s))) s.
Proof. unfold check_record. by destruct (probe i (probe_target s)). Qed.

Lemma check_record_commits i s :
  commits (check_record probe i s).2
  = [(i, classify (probe i (probe_target s)))].
Proof.
  unfold check_record.
  destruct (probe i (probe_target s)); [by destruct (IsHealthy s)|done].
Qed.

Lemma check_record_relays i s : relays (check_record probe i s).2 = [].
Proof.
  unfold check_record.
  destruct (probe i (probe_target s)); [by destruct (IsHealthy s)|done].
Qed.

Lemma check_from_spec l :
  ∀ i, check_from probe i l
       = (imap (λ k s, (check_record probe (i + k) s).1) l,
          mjoin (imap (λ k s, (check_record probe (i + k) s).2) l)).
Proof.
  induction l as [|s l IH]; intros i; [done|].
  cbn [check_from]. rewrite IH.
  destruct (check_record probe i s) as [s' t1] eqn:Hrec.
  rewrite !imap_cons. cbn [mjoin list_join].
  rewrite Nat.add_0_r, Hrec. cbn [fst snd].
  f_equal.
  - f_equal. apply imap_ext. intros k x _. simpl. f_equal. f_equal. lia.
  - f_equal. f_equal. apply imap_ext. intros k x _. simpl.
    f_equal. f_equal. lia.
Qed.

Lemma HealthCheck_cycle_servers lb :
  servers (HealthCheck_cycle probe lb).1
  = imap (λ i s, SetHealth (classify (probe i (probe_target s))) s)
         (servers lb).
Proof.
  unfold HealthCheck_cycle. rewrite check_from_spec. cbn [fst servers].
  apply imap_ext. intros i s _. simpl. apply check_record_fst.
Qed.

Lemma HealthCheck_cycle_current lb :
  current (HealthCheck_cycle probe lb).1 = current lb.
Proof. unfold HealthCheck_cycle. by rewrite check_from_spec. Qed.

Lemma HealthCheck_cycle_trace lb :
  (HealthCheck_cycle probe lb).2
  = EvLog LogPerformingChecks
    :: mjoin (imap (λ i s, (check_record probe i s).2) (servers lb))
    ++ [EvSleep 30].
Proof. unfold HealthCheck_cycle. by rewrite check_from_spec. Qed.

Lemma omap_mjoin_imap {A B} (f : Event → option B)
    (g : nat → A → list Event) (l : list A) :
  omap f (mjoin (imap g l)) = mjoin (imap (λ i x, omap f (g i x)) l).
Proof.
  revert g. induction l as [|x l IH]; intros g; [done|].
  rewrite !imap_cons. cbn [mjoin list_join].
  rewrite omap_app. f_equal. apply IH.
Qed.

Lemma mjoin_imap_singleton {A B} (g : nat → A → B) (l : list A) :
  mjoin (imap (λ i x, [g i x]) l) = imap g l.
Proof.
  revert g. induction l as [|x l IH]; intros g; [done|].
  rewrite !imap_cons. cbn [mjoin list_join]. simpl. f_equal. apply IH.
Qed.

Lemma mjoin_imap_nil {A B} (l : list A) :
  mjoin (imap (λ _ _, @nil B) l) = [].
Proof. induction l as [|x l IH]; [done|]. rewrite imap_cons. apply IH. Qed.

Lemma HealthCheck_cycle_commits lb :
  commits (HealthCheck_cycle probe lb).2
  = imap (λ i s, (i, classify (probe i (probe_target s)))) (servers lb).
Proof.
  rewrite HealthCheck_cycle_trace. unfold commits.
  cbn [omap list_omap commit_of]. rewrite omap_app. simpl.
  rewrite app_nil_r, omap_mjoin_imap.
  etrans; [|apply mjoin_imap_singleton]. f_equal.
  apply imap_ext. intros i s _. apply check_record_commits.
Qed.

Lemma HealthCheck_cycle_relays lb : relays (HealthCheck_cycle probe lb).2 = [].
Proof.
  rewrite HealthCheck_cycle_trace. unfold relays.
  cbn [omap list_omap relay_of]. rewrite omap_app. simpl.
  rewrite app_nil_r, omap_mjoin_imap.
  etrans; [|apply (mjoin_imap_nil (servers lb))]. f_equal.
  apply imap_ext. intros i s _. apply check_record_relays.
Qed.

End Monitor.

(** C5.  A monitor cycle commits, for every record and in registry order,
    exactly one [SetHealth] whose argument is the classification of that
    record's probe, whatever the flag was before: [false] for a transport
    failure, [true] for status 200, [false] for any other status; after
    the cycle [IsHealthy] of every record reads that classification, on a
    record with the same endpoint. *)
Theorem HealthCheck_cycle_classifies (probe : Prober) (lb : LoadBalancer) :
  commits (HealthCheck_cycle probe lb).2
  = imap (λ i s, (i, classify (probe i (probe_target s)))) (servers lb)
  ∧ servers (HealthCheck_cycle probe lb).1
    = imap (λ i s, SetHealth (classify (probe i (probe_target s))) s)
           (servers lb)
  ∧ classify ProbeFailed = false
  ∧ classify (ProbeStatus 200) = true
  ∧ (∀ code, code ≠ 200%Z → classify (ProbeStatus code) = false)
  ∧ length (servers (HealthCheck_cycle probe lb).1) = length (servers lb)
  ∧ ∀ i s,
      servers lb !! i = Some s →
      ∃ s', servers (HealthCheck_cycle probe lb).1 !! i = Some s'
            ∧ URL s' = URL s
            ∧ IsHealthy s'
              = match probe i (URL s +:+ "/health") with
                | ProbeFailed => false
                | ProbeStatus code => bool_decide (code = 200%Z)
                end.
Proof.
  split; [apply HealthCheck_cycle_commits|].
  split; [apply HealthCheck_cycle_servers|].
  split; [done|]. split; [done|].
  split; [intros code Hne; simpl; by apply Z.eqb_neq|].
  split; [by rewrite HealthCheck_cycle_servers, length_imap|].
  intros i s Hs.
  exists (SetHealth (classify (probe i (probe_target s))) s).
  split; [by rewrite HealthCheck_cycle_servers, list_lookup_imap, Hs|].
  split; [done|].
  unfold IsHealthy, SetHealth, probe_target. cbn [Healthy].
  destruct (probe i (URL s +:+ "/health")) as [|code]; [done|].
  simpl. unfold StatusOK.
  destruct (Z.eqb_spec code 200) as [->|Hne].
  - by rewrite bool_decide_eq_true_2.
  - by rewrite bool_decide_eq_false_2.
Qed.

Lemma HealthCheck_cycle_classifies_witness :
  ∃ s', servers (HealthCheck_cycle (λ _ _, ProbeStatus 500)
                   NewLoadBalancer).1 !! 0 = Some s'
        ∧ URL s' = "http://host.docker.internal:8081"
        ∧ IsHealthy s' = false.
Proof.
  destruct (HealthCheck_cycle_classifies (λ _ _, ProbeStatus 500)
              NewLoadBalancer) as (_ & _ & _ & _ & _ & _ & Hflag).
  apply (Hflag 0 (mkServer "http://host.docker.internal:8081" true)).
  reflexivity.
Defined.

(** ** The forwarder *)

Section Forwarder.

Variables (relay : Relay) (now : Z) (r : Request).

Lemma set_health_at_lookup i b lb :
  servers (set_health_at i b lb) !! i = SetHealth b <$> servers lb !! i.
Proof. apply list_lookup_alter_eq. Qed.

Lemma set_health_at_lookup_ne i j b lb :
  i ≠ j → servers (set_health_at i b lb) !! j = servers lb !! j.
Proof. intros Hne. by apply list_lookup_alter_ne. Qed.

Lemma ServeHTTP_status lb :
  Path r = "/lb-status" →
  ServeHTTP relay now r lb = (Some (handleStatus now lb).1, lb, []).
Proof. intros Hp. unfold ServeHTTP. by rewrite Hp. Qed.

Lemma ServeHTTP_unavailable lb :
  Path r ≠ "/lb-status" →
  healthyServers lb = [] →
  ServeHTTP relay now r lb
  = (Some (http_Error "Service Unavailable: no healthy servers available"
                      StatusServiceUnavailable), lb, []).
Proof.
  intros Hp Hnil. unfold ServeHTTP.
  apply String.eqb_neq in Hp. rewrite Hp.
  by rewrite GetNextServer_empty.
Qed.

Lemma ServeHTTP_relayed lb i lb1 B :
  Path r ≠ "/lb-status" →
  GetNextServer lb = (Selected i, lb1) →
  servers lb !! i = Some B →
  ServeHTTP relay now r lb
  = match relay (URL B) r with
    | RelayFailed =>
        (Some (http_Error "Service Temporarily Unavailable"
                          StatusServiceUnavailable),
         set_health_at i false lb1,
         [EvLog (LogRouting (URL B)); EvRelay i;
          EvLog (LogProxyError (URL B)); EvSetHealth i false])
    | RelayDone resp =>
        (Some resp, lb1,
         [EvLog (LogRouting (URL B)); EvRelay i;
          EvLog (LogRequestCompleted (URL B) (StatusCode resp))])
    end.
Proof.
  intros Hp Hget HB. unfold ServeHTTP.
  apply String.eqb_neq in Hp. rewrite Hp, Hget.
  assert (Hs : servers lb1 = servers lb).
  { pose proof (GetNextServer_servers lb) as H. by rewrite Hget in H. }
  rewrite Hs, HB. by destruct (relay (URL B) r).
Qed.

End Forwarder.

(** C4.  When every record is unhealthy, [GetNextServer] returns the
    no-healthy-servers error and no record, and leaves the balancer as it
    was, so that any number of consecutive calls fail alike; a request to
    any path other than the status path is answered with 503 and a
    plain-text explanation, without a relay attempt and without a change
    of state. *)
Theorem all_unhealthy_unavailable lb :
  Forall (λ s, IsHealthy s = false) (servers lb) →
  GetNextServer lb = (SelectError "no healthy servers available", lb)
  ∧ (∀ n, select_n n lb
          = (replicate n (SelectError "no healthy servers available"), lb))
  ∧ ∀ relay now r,
      Path r ≠ "/lb-status" →
      ServeHTTP relay now r lb
      = (Some {| StatusCode := 503;
                 ContentType := "text/plain; charset=utf-8";
                 Body := PlainText
                   ("Service Unavailable: no healthy servers available"
                    +:+ newline) |},
         lb, []).
Proof.
  intros Hall.
  assert (Hnil : healthyServers lb = [])
    by (by apply healthy_from_all_false).
  pose proof (GetNextServer_empty lb Hnil) as Hget.
  split; [done|]. split.
  - induction n as [|n IH]; [done|].
    cbn [select_n]. by rewrite Hget, IH.
  - intros relay now r Hp. by rewrite ServeHTTP_unavailable.
Qed.

Lemma all_unhealthy_unavailable_witness :
  (ServeHTTP relay_refused 0 get_users all_down).1.1
  = Some (http_Error "Service Unavailable: no healthy servers available" 503).
Proof.
  destruct (all_unhealthy_unavailable all_down) as (_ & _ & Hserve).
  - repeat constructor.
  - rewrite (Hserve relay_refused 0%Z get_users); [reflexivity|].
    discriminate.
Defined.

(** C6.  When the relay to the selected backend [B] fails at the
    transport level, the same call of [ServeHTTP] commits
    [SetHealth(false)] on [B] and on no other record, answers with status
    503, content type [text/plain] and the body
    ["Service Temporarily Unavailable"] followed by a newline, has made
    exactly one relay attempt (to [B]), and leaves a state in which
    [IsHealthy] of [B] is false and [GetNextServer] does not return [B]. *)
Theorem relay_failure_marks_unhealthy relay now r lb i lb1 B :
  Path r ≠ "/lb-status" →
  GetNextServer lb = (Selected i, lb1) →
  servers lb !! i = Some B →
  relay (URL B) r = RelayFailed →
  ∃ lb2 t,
    ServeHTTP relay now r lb
    = (Some {| StatusCode := 503;
               ContentType := "text/plain; charset=utf-8";
               Body := PlainText
                 ("Service Temporarily Unavailable" +:+ newline) |},
       lb2, t)
    ∧ servers lb2 !! i = Some {| URL := URL B; Healthy := false |}
    ∧ (∀ j, j ≠ i → servers lb2 !! j = servers lb !! j)
    ∧ current lb2 = current lb1
    ∧ commits t = [(i, false)]
    ∧ relays t = [i]
    ∧ ∀ i' lb3, GetNextServer lb2 = (Selected i', lb3) → i' ≠ i.
Proof.
  intros Hp Hget HB Hfail.
  assert (Hs : servers lb1 = servers lb).
  { pose proof (GetNextServer_servers lb) as H. by rewrite Hget in H. }
  exists (set_health_at i false lb1),
    [EvLog (LogRouting (URL B)); EvRelay i;
     EvLog (LogProxyError (URL B)); EvSetHealth i false].
  split.
  { rewrite (ServeHTTP_relayed relay now r lb i lb1 B) by done.
    rewrite Hfail. reflexivity. }
  assert (Hi : servers (set_health_at i false lb1) !! i
               = Some (SetHealth false B))
    by (by rewrite set_health_at_lookup, Hs, HB).
  split; [done|]. split.
  { intros j Hj. rewrite set_health_at_lookup_ne by done. by rewrite Hs. }
  split; [done|]. split; [done|]. split; [done|].
  intros i' lb3 Hnext ->.
  apply GetNextServer_selected in Hnext as (s & Hs' & Hhealthy).
  rewrite Hi in Hs'. by injection Hs' as <-.
Qed.

Lemma relay_failure_marks_unhealthy_witness :
  ∃ lb2 t,
    ServeHTTP relay_refused 0 get_users NewLoadBalancer
    = (Some {| StatusCode := 503;
               ContentType := "text/plain; charset=utf-8";
               Body := PlainText
                 ("Service Temporarily Unavailable" +:+ newline) |},
       lb2, t)
    ∧ servers lb2 !! 1
      = Some {| URL := "http://host.docker.internal:8082"; Healthy := false |}
    ∧ (∀ j, j ≠ 1 → servers lb2 !! j = servers NewLoadBalancer !! j)
    ∧ current lb2 = current (lb_at 1)
    ∧ commits t = [(1, false)]
    ∧ relays t = [1]
    ∧ ∀ i' lb3, GetNextServer lb2 = (Selected i', lb3) → i' ≠ 1.
Proof.
  apply (relay_failure_marks_unhealthy relay_refused 0 get_users
           NewLoadBalancer 1 (lb_at 1)
           (mkServer "http://host.docker.internal:8082" true)).
  - discriminate.
  - reflexivity.
  - reflexivity.
  - reflexivity.
Defined.

(** C9.  A request to [/lb-status] is answered by [handleStatus] with the
    activity flag ["active"], the registry's records (endpoint and health
    flag of each, in order), the algorithm name ["round-robin"] and the
    clock reading; the balancer (every flag, every endpoint, the length of
    the registry and the counter) is returned unchanged and no effect on a
    record or a backend is performed. *)
Theorem status_request_read_only relay now r lb :
  Path r = "/lb-status" →
  ServeHTTP relay now r lb
  = (Some {| StatusCode := 200;
             ContentType := "application/json";
             Body := StatusJSON {| StatusLoadBalancer := "active";
                                   StatusServers := servers lb;
                                   StatusAlgorithm := "round-robin";
                                   StatusTimestamp := now |} |},
     lb, [])
  ∧ (handleStatus now lb).2 = lb.
Proof. intros Hp. split; [by rewrite ServeHTTP_status | done]. Qed.

Lemma status_request_read_only_witness :
  ServeHTTP relay_refused 1757157837 get_status all_down
  = (Some {| StatusCode := 200;
             ContentType := "application/json";
             Body := StatusJSON {| StatusLoadBalancer := "active";
                                   StatusServers := servers all_down;
                                   StatusAlgorithm := "round-robin";
                                   StatusTimestamp := 1757157837 |} |},
     all_down, [])
  ∧ (handleStatus 1757157837 all_down).2 = all_down.
Proof.
  apply (status_request_read_only relay_refused 1757157837 get_status all_down).
  reflexivity.
Defined.

(** C10 (as amended).  A call of [GetNextServer] that fails returns the
    balancer unchanged, counter included: the emptiness check precedes the
    increment.  A call that succeeds leaves the registry untouched and
    advances the counter by one modulo [2^64]: it stores [c + 1] for every
    prior value [c] below [2^64 - 1], and [0] for [c = 2^64 - 1].  The
    slice index never goes out of range. *)
Theorem GetNextServer_counter lb :
  match GetNextServer lb with
  | (SelectError _, lb') => healthy_records lb = [] ∧ lb' = lb
  | (Selected _, lb') =>
      healthy_records lb ≠ []
      ∧ servers lb' = servers lb
      ∧ current lb' = AddUint64 (current lb) 1
      ∧ (is_uint64 (current lb) → current lb ≠ (uint64_modulus - 1)%Z →
         current lb' = (current lb + 1)%Z)
      ∧ (current lb = (2 ^ 64 - 1)%Z → current lb' = 0%Z)
      ∧ (is_uint64 (current lb) → (0 ≤ current lb' < 2 ^ 64)%Z)
  | (IndexPanic, _) => False
  end.
Proof.
  destruct (decide (healthyServers lb = [])) as [Hnil|Hne].
  - rewrite GetNextServer_empty by done. split; [|done].
    apply length_zero_iff_nil. by rewrite <- healthyServers_length, Hnil.
  - destruct (GetNextServer_nonempty lb Hne) as (i & _ & ->).
    split; [|split; [done|split; [done|split; [|split]]]].
    + intros Hnil. apply Hne, length_zero_iff_nil.
      by rewrite healthyServers_length, Hnil.
    + intros Hc Hmax. cbn [current]. by apply AddUint64_no_wrap.
    + intros Hmax. cbn [current]. rewrite Hmax. reflexivity.
    + intros _. cbn [current]. apply AddUint64_range.
Qed.

Lemma GetNextServer_counter_witness :
  current (GetNextServer (lb_at 41)).2 = (current (lb_at 41) + 1)%Z.
Proof.
  pose proof (GetNextServer_counter (lb_at 41)) as H.
  assert (E : GetNextServer (lb_at 41) = (Selected 0, lb_at 42))
    by reflexivity.
  rewrite E in H |- *. destruct H as (_ & _ & _ & Hstep & _).
  apply Hstep.
  - unfold is_uint64, uint64_modulus. simpl. lia.
  - unfold uint64_modulus. simpl. lia.
Defined.

(** C10 (as stated) fails at the wrap of the counter.  At [2^64 - 1] a
    successful call stores [0], not the prior value plus one; and from
    [2^64 - 2] two successive successful calls on three healthy records
    return the same record, so the round-robin position has not moved. *)
Lemma GetNextServer_counter_wrap_counterexample :
  GetNextServer (lb_at (2 ^ 64 - 1)) = (Selected 0, lb_at 0)
  ∧ ¬ advances_by_one (lb_at (2 ^ 64 - 1))
  ∧ GetNextServer (lb_at (2 ^ 64 - 2)) = (Selected 0, lb_at (2 ^ 64 - 1))
  ∧ ¬ position_advances (lb_at (2 ^ 64 - 2)).
Proof.
  split; [by vm_compute|]. split; [|split; [by vm_compute|]].
  - intros Hadv. specialize (Hadv 0 (lb_at 0) ltac:(by vm_compute)).
    vm_compute in Hadv. discriminate Hadv.
  - intros Hpos.
    apply (Hpos 0 (lb_at (2 ^ 64 - 1)) 0 (lb_at 0));
      [simpl; lia | by vm_compute | by vm_compute | reflexivity].
Qed.

(** ** Runs of operations *)

Section Runs.

Lemma run_cons op ops lb :
  run (op :: ops) lb
  = ((run ops (step op lb).1).1, (step op lb).2 ++ (run ops (step op lb).1).2).
Proof.
  change (run (op :: ops) lb)
    with (let '(lb1, t1) := step op lb in
          let '(lb2, t2) := run ops lb1 in (lb2, t1 ++ t2)).
  destruct (step op lb) as [lb1 t1]. cbn [fst snd].
  by destruct (run ops lb1) as [lb2 t2].
Qed.

Lemma check_server_endpoints probe i lb :
  endpoints (check_server probe i lb).1 = endpoints lb.
Proof.
  unfold check_server, endpoints.
  destruct (servers lb !! i) as [s|] eqn:Hs; [|done].
  pose proof (check_record_fst probe i s) as Hfst.
  destruct (check_record probe i s) as [s' t]. cbn [fst servers] in *.
  rewrite list_fmap_insert. apply list_insert_id.
  rewrite list_lookup_fmap, Hs, Hfst. done.
Qed.

Lemma HealthCheck_cycle_endpoints probe lb :
  endpoints (HealthCheck_cycle probe lb).1 = endpoints lb.
Proof.
  unfold endpoints. rewrite HealthCheck_cycle_servers.
  apply list_eq. intros i.
  rewrite !list_lookup_fmap, list_lookup_imap.
  by destruct (servers lb !! i).
Qed.

Lemma set_health_at_endpoints i b lb :
  endpoints (set_health_at i b lb) = endpoints lb.
Proof.
  unfold endpoints. apply list_eq. intros j.
  rewrite !list_lookup_fmap.
  destruct (decide (i = j)) as [->|Hne].
  - rewrite set_health_at_lookup. by destruct (servers lb !! j).
  - by rewrite set_health_at_lookup_ne.
Qed.

Lemma GetNextServer_endpoints lb : endpoints (GetNextServer lb).2 = endpoints lb.
Proof. unfold endpoints. by rewrite GetNextServer_servers. Qed.

Lemma ServeHTTP_endpoints relay now r lb :
  endpoints (ServeHTTP relay now r lb).1.2 = endpoints lb.
Proof.
  unfold ServeHTTP.
  destruct (String.eqb (Path r) "/lb-status"); [done|].
  pose proof (GetNextServer_endpoints lb) as He.
  destruct (GetNextServer lb) as [[i|msg|] lb1]; cbn [snd] in He; try done.
  destruct (servers lb1 !! i) as [s|]; [|done].
  destruct (relay (URL s) r); [|done].
  cbn [fst snd]. by rewrite set_health_at_endpoints.
Qed.

Lemma step_endpoints op lb : endpoints (step op lb).1 = endpoints lb.
Proof.
  destruct op as [|probe i|probe|relay now r]; cbn [step].
  - apply GetNextServer_endpoints.
  - apply check_server_endpoints.
  - apply HealthCheck_cycle_endpoints.
  - pose proof (ServeHTTP_endpoints relay now r lb) as He.
    by destruct (ServeHTTP relay now r lb) as [[resp lb'] t].
Qed.

Lemma endpoints_length lb1 lb2 :
  endpoints lb1 = endpoints lb2 →
  length (servers lb1) = length (servers lb2).
Proof.
  unfold endpoints. intros He.
  by rewrite <- (length_fmap URL (servers lb1)), He, length_fmap.
Qed.

(** The prefixes of the monitor's endless loop are runs of whole cycles. *)
Lemma HealthCheck_as_run probes :
  ∀ lb, HealthCheck probes lb = run (OpCycle <$> probes) lb.
Proof.
  induction probes as [|p ps IH]; intros lb; [done|].
  rewrite fmap_cons, run_cons. cbn [HealthCheck step].
  destruct (HealthCheck_cycle p lb) as [lb1 t1]. cbn [fst snd].
  rewrite IH. by destruct (run (OpCycle <$> ps) lb1).
Qed.

End Runs.

(** C8.  Whatever operations run (selections, single probes, whole
    monitor cycles, dispatched requests, status requests), in whatever
    order, the registry keeps its length and every record keeps its
    endpoint; the status reporter and the selector do not even touch a
    record. *)
Theorem registry_shape_invariant (ops : list Op) (lb : LoadBalancer) :
  endpoints (run ops lb).1 = endpoints lb
  ∧ length (servers (run ops lb).1) = length (servers lb)
  ∧ servers (GetNextServer lb).2 = servers lb
  ∧ ∀ now, (handleStatus now lb).2 = lb.
Proof.
  assert (He : endpoints (run ops lb).1 = endpoints lb).
  { revert lb. induction ops as [|op ops IH]; intros lb; [done|].
    rewrite run_cons. cbn [fst]. by rewrite IH, step_endpoints. }
  split; [done|]. split; [by apply endpoints_length|].
  split; [apply GetNextServer_servers | done].
Qed.

(** ** Unhealthy records stay out of the rotation *)

Section Exclusion.

Variable j : nat.

Lemma down_servers lb lb' : servers lb' = servers lb → down j lb → down j lb'.
Proof. unfold down. by intros ->. Qed.

Lemma GetNextServer_not_down lb i lb' :
  down j lb → GetNextServer lb = (Selected i, lb') → i ≠ j.
Proof.
  intros (s & Hs & Hdown) Hget ->.
  apply GetNextServer_selected in Hget as (s' & Hs' & Hup).
  rewrite Hs in Hs'. injection Hs' as <-. congruence.
Qed.

Lemma check_server_keeps_down probe i lb :
  down j lb →
  (j, true) ∉ commits (check_server probe i lb).2 →
  relays (check_server probe i lb).2 = []
  ∧ down j (check_server probe i lb).1.
Proof.
  intros (s & Hs & Hdown). unfold check_server.
  destruct (servers lb !! i) as [x|] eqn:Hx; [|by (split; [|exists s])].
  pose proof (check_record_fst probe i x) as Hfst.
  pose proof (check_record_commits probe i x) as Hcom.
  pose proof (check_record_relays probe i x) as Hrel.
  destruct (check_record probe i x) as [x' t]. cbn [fst snd servers] in *.
  intros Hno. split; [done|].
  destruct (decide (i = j)) as [->|Hne].
  - rewrite Hs in Hx. injection Hx as <-.
    exists x'. split.
    + apply list_lookup_insert_eq. by eapply lookup_lt_Some.
    + rewrite Hfst. unfold IsHealthy, SetHealth. cbn [Healthy].
      destruct (classify (probe j (probe_target s))) eqn:Hc; [|done].
      exfalso. apply Hno. rewrite Hcom. apply list_elem_of_here.
  - exists s. split; [|done]. cbn [servers].
    by rewrite list_lookup_insert_ne.
Qed.

Lemma HealthCheck_cycle_keeps_down probe lb :
  down j lb →
  (j, true) ∉ commits (HealthCheck_cycle probe lb).2 →
  relays (HealthCheck_cycle probe lb).2 = []
  ∧ down j (HealthCheck_cycle probe lb).1.
Proof.
  intros (s & Hs & Hdown) Hno.
  split; [apply HealthCheck_cycle_relays|].
  exists (SetHealth (classify (probe j (probe_target s))) s).
  rewrite HealthCheck_cycle_servers, list_lookup_imap, Hs.
  split; [done|].
  unfold IsHealthy, SetHealth. cbn [Healthy].
  destruct (classify (probe j (probe_target s))) eqn:Hc; [|done].
  exfalso. apply Hno. rewrite HealthCheck_cycle_commits.
  apply list_elem_of_lookup. exists j.
  by rewrite list_lookup_imap, Hs, <- Hc.
Qed.

Lemma ServeHTTP_keeps_down relay now r lb :
  down j lb →
  (j ∉ relays (ServeHTTP relay now r lb).2)
  ∧ down j (ServeHTTP relay now r lb).1.2.
Proof.
  intros Hdown. unfold ServeHTTP.
  destruct (String.eqb (Path r) "/lb-status").
  { split; [apply not_elem_of_nil | done]. }
  pose proof (GetNextServer_servers lb) as Hsv.
  pose proof (GetNextServer_not_down lb) as Hsel.
  destruct (GetNextServer lb) as [[i|msg|] lb1]; cbn [snd] in Hsv.
  - specialize (Hsel i lb1 Hdown eq_refl).
    pose proof (down_servers lb lb1 Hsv Hdown) as Hdown1.
    destruct (servers lb1 !! i) as [s|].
    + destruct (relay (URL s) r); cbn [fst snd relays omap list_omap relay_of].
      * split; [by apply not_elem_of_cons; split; [|apply not_elem_of_nil]|].
        destruct Hdown1 as (x & Hx & Hd). exists x.
        by rewrite set_health_at_lookup_ne.
      * split; [by apply not_elem_of_cons; split; [|apply not_elem_of_nil]|].
        done.
    + split; [apply not_elem_of_nil | done].
  - split; [apply not_elem_of_nil | by apply (down_servers lb)].
  - split; [apply not_elem_of_nil | by apply (down_servers lb)].
Qed.

Lemma step_keeps_down op lb :
  down j lb →
  (j, true) ∉ commits (step op lb).2 →
  (j ∉ relays (step op lb).2) ∧ down j (step op lb).1.
Proof.
  intros Hdown Hno.
  destruct op as [|probe i|probe|relay now r]; cbn [step] in *.
  - split; [apply not_elem_of_nil|].
    apply (down_servers lb); [apply GetNextServer_servers | done].
  - destruct (check_server_keeps_down probe i lb Hdown Hno) as [-> ?].
    split; [apply not_elem_of_nil | done].
  - destruct (HealthCheck_cycle_keeps_down probe lb Hdown Hno) as [-> ?].
    split; [apply not_elem_of_nil | done].
  - pose proof (ServeHTTP_keeps_down relay now r lb Hdown) as H.
    by destruct (ServeHTTP relay now r lb) as [[resp lb'] t].
Qed.

Lemma run_keeps_down ops :
  ∀ lb, down j lb →
    (j, true) ∉ commits (run ops lb).2 →
    (j ∉ relays (run ops lb).2) ∧ down j (run ops lb).1.
Proof.
  induction ops as [|op ops IH]; intros lb Hdown Hno.
  { split; [apply not_elem_of_nil | done]. }
  rewrite run_cons in *. cbn [fst snd] in *.
  unfold commits, relays in *. rewrite omap_app in Hno. rewrite omap_app.
  apply not_elem_of_app in Hno as [Hno1 Hno2].
  destruct (step_keeps_down op lb Hdown Hno1) as [Hr1 Hd1].
  destruct (IH _ Hd1 Hno2) as [Hr2 Hd2].
  split; [by apply not_elem_of_app | done].
Qed.

Lemma select_n_skips_down n :
  ∀ lb, down j lb → Selected j ∉ (select_n n lb).1.
Proof.
  induction n as [|n IH]; intros lb Hdown; [apply not_elem_of_nil|].
  cbn [select_n].
  pose proof (GetNextServer_servers lb) as Hsv.
  pose proof (GetNextServer_not_down lb) as Hsel.
  destruct (GetNextServer lb) as [r lb1]. cbn [snd] in Hsv.
  specialize (IH lb1 (down_servers lb lb1 Hsv Hdown)).
  destruct (select_n n lb1) as [rs lb2]. cbn [fst] in *.
  apply not_elem_of_cons. split; [|done].
  intros <-. by apply (Hsel j lb1).
Qed.

End Exclusion.

(** C3.  A record whose health flag is false when [GetNextServer] runs is
    not the record returned, in one call or in any number of consecutive
    calls; and along any run of operations, as long as no [SetHealth(true)]
    is committed on that record, no request is relayed to it and its flag
    stays false. *)
Theorem unhealthy_never_selected (j : nat) (lb : LoadBalancer) :
  down j lb →
  (∀ i lb', GetNextServer lb = (Selected i, lb') → i ≠ j)
  ∧ (∀ n, Selected j ∉ (select_n n lb).1)
  ∧ ∀ ops, (j, true) ∉ commits (run ops lb).2 →
           (j ∉ relays (run ops lb).2) ∧ down j (run ops lb).1.
Proof.
  intros Hdown. split; [|split].
  - intros i lb'. by apply GetNextServer_not_down.
  - intros n. by apply select_n_skips_down.
  - intros ops. by apply run_keeps_down.
Qed.

Lemma unhealthy_never_selected_witness :
  (∀ i lb', GetNextServer second_down = (Selected i, lb') → i ≠ 1)
  ∧ (∀ n, Selected 1 ∉ (select_n n second_down).1)
  ∧ ∀ ops, (1, true) ∉ commits (run ops second_down).2 →
           (1 ∉ relays (run ops second_down).2)
           ∧ down 1 (run ops second_down).1.
Proof.
  apply (unhealthy_never_selected 1 second_down).
  exists (mkServer "http://host.docker.internal:8082" false).
  split; reflexivity.
Defined.

(** ** Logging of the health monitor *)

Section MonitorLog.

Variable probe : Prober.

Lemma HealthCheck_cycle_log_lines lb :
  log_lines (HealthCheck_cycle probe lb).2
  = LogPerformingChecks
    :: mjoin (imap (λ i s, log_lines (check_record probe i s).2)
                   (servers lb)).
Proof.
  rewrite HealthCheck_cycle_trace. unfold log_lines.
  cbn [omap list_omap log_of]. rewrite omap_app. simpl.
  by rewrite app_nil_r, omap_mjoin_imap.
Qed.

Lemma check_record_log_changed i s :
  classify (probe i (probe_target s)) ≠ IsHealthy s →
  ∃ l, log_lines (check_record probe i s).2 = [l] ∧ is_transition l = true.
Proof.
  unfold check_record, IsHealthy.
  destruct (probe i (probe_target s)) as [|code]; cbn [classify].
  - destruct (Healthy s); [|done]. intros _. by eexists.
  - destruct (Healthy s), (Z.eqb code StatusOK); try done;
      intros _; by eexists.
Qed.

Lemma check_record_log_same i s :
  classify (probe i (probe_target s)) = IsHealthy s →
  log_lines (check_record probe i s).2
  = match probe i (probe_target s) with
    | ProbeFailed => []
    | ProbeStatus _ => [LogStillUp (URL s)]
    end.
Proof.
  unfold check_record, IsHealthy.
  destruct (probe i (probe_target s)) as [|code]; cbn [classify].
  - by destruct (Healthy s).
  - by destruct (Healthy s), (Z.eqb code StatusOK).
Qed.

Lemma flag_after_cycle lb i s :
  servers (HealthCheck_cycle probe lb).1 !! i = Some s →
  ∃ s0, servers lb !! i = Some s0
        ∧ URL s = URL s0
        ∧ IsHealthy s = classify (probe i (probe_target s0)).
Proof.
  rewrite HealthCheck_cycle_servers, list_lookup_imap.
  destruct (servers lb !! i) as [s0|]; [|done].
  intros [= <-]. by exists s0.
Qed.

End MonitorLog.

(** C7 (as amended).  The log lines of a monitor cycle are the cycle
    header followed, record by record in registry order, by the lines of
    that record's probe.  For each record, with [was] the health flag it
    carries when probed and [new] the classification of the probe: when
    [new] differs from [was] exactly one line is logged and it is a
    transition line; when [new] equals [was] no transition line is logged:
    the steady-state line alone if the probe completed with a status code,
    no line at all if the probe failed at the transport level.  When the
    state probed is the one a previous cycle left, [was] is that cycle's
    classification of the record. *)
Theorem HealthCheck_cycle_logging (probe : Prober) (lb : LoadBalancer) :
  log_lines (HealthCheck_cycle probe lb).2
  = LogPerformingChecks
    :: mjoin (imap (λ i s, log_lines (check_record probe i s).2) (servers lb))
  ∧ ∀ i s,
      servers lb !! i = Some s →
      let res := probe i (probe_target s) in
      let lines := log_lines (check_record probe i s).2 in
      (classify res ≠ IsHealthy s →
       ∃ l, lines = [l] ∧ is_transition l = true)
      ∧ (classify res = IsHealthy s →
         ∀ code, res = ProbeStatus code → lines = [LogStillUp (URL s)])
      ∧ (classify res = IsHealthy s → res = ProbeFailed → lines = [])
      ∧ (∀ l, l ∈ lines → is_transition l = true →
              classify res ≠ IsHealthy s)
      ∧ (∀ probe0 lb0,
           lb = (HealthCheck_cycle probe0 lb0).1 →
           ∃ s0, servers lb0 !! i = Some s0
                 ∧ IsHealthy s = classify (probe0 i (probe_target s0))).
Proof.
  split; [apply HealthCheck_cycle_log_lines|].
  intros i s Hs res lines. subst res lines.
  split; [apply check_record_log_changed|].
  split.
  { intros Hsame code Hres. rewrite check_record_log_same by done.
    by rewrite Hres. }
  split.
  { intros Hsame Hres. rewrite check_record_log_same by done.
    by rewrite Hres. }
  split.
  { intros l Hl Htr Hsame. rewrite check_record_log_same in Hl by done.
    destruct (probe i (probe_target s)).
    - by apply not_elem_of_nil in Hl.
    - apply list_elem_of_singleton in Hl as ->. done. }
  intros probe0 lb0 ->.
  destruct (flag_after_cycle probe0 lb0 i s Hs) as (s0 & Hs0 & _ & Hflag).
  by exists s0.
Qed.

Lemma HealthCheck_cycle_logging_witness :
  ∃ l, log_lines (check_record second_unreachable 1
                    (mkServer "http://host.docker.internal:8082" true)).2
       = [l]
       ∧ is_transition l = true.
Proof.
  destruct (HealthCheck_cycle_logging second_unreachable NewLoadBalancer)
    as [_ Hrec].
  destruct (Hrec 1 (mkServer "http://host.docker.internal:8082" true)
              eq_refl) as (Hchanged & _).
  apply Hchanged. discriminate.
Defined.

(** The flag read at probe time need not come from the previous cycle: a
    relay failure between two cycles in which the second backend answers
    200 makes the later cycle log a recovery. *)
Example recovery_logged_after_relay_failure :
  let lb1 := (HealthCheck_cycle all_reachable NewLoadBalancer).1 in
  let lb2 := (ServeHTTP relay_refused 0 get_users lb1).1.2 in
  relays (ServeHTTP relay_refused 0 get_users lb1).2 = [1]
  ∧ log_lines (HealthCheck_cycle all_reachable lb2).2
    = [LogPerformingChecks;
       LogStillUp "http://host.docker.internal:8081";
       LogBackUp "http://host.docker.internal:8082";
       LogStillUp "http://host.docker.internal:8083"].
Proof. split; reflexivity. Qed.

(** C7 (as stated) fails for a record that stays unreachable.  The second
    backend refuses connections in two consecutive cycles: the first cycle
    logs the transition, and the second, in which the classification
    repeats, logs no line for that record, hence no steady-state line. *)
Lemma HealthCheck_silent_counterexample :
  let lb1 := (HealthCheck_cycle second_unreachable NewLoadBalancer).1 in
  let s1 := mkServer "http://host.docker.internal:8082" false in
  servers lb1 !! 1 = Some s1
  ∧ classify (second_unreachable 1 (probe_target s1)) = IsHealthy s1
  ∧ log_lines (HealthCheck_cycle second_unreachable NewLoadBalancer).2
    = [LogPerformingChecks;
       LogStillUp "http://host.docker.internal:8081";
       LogCheckFailed "http://host.docker.internal:8082";
       LogStillUp "http://host.docker.internal:8083"]
  ∧ log_lines (HealthCheck_cycle second_unreachable lb1).2
    = [LogPerformingChecks;
       LogStillUp "http://host.docker.internal:8081";
       LogStillUp "http://host.docker.internal:8083"]
  ∧ log_lines (check_record second_unreachable 1 s1).2 = []
  ∧ ¬ logs_every_outcome second_unreachable 1 s1.
Proof.
  cbv zeta. repeat (split; [reflexivity|]).
  unfold logs_every_outcome. cbv zeta.
  rewrite decide_True by reflexivity.
  intros (l & Hl & _). discriminate Hl.
Qed.

(** ** The healthy view as a duplicate-free index *)

Section HealthyIndex.

Lemma healthy_from_elem (l : list Server) :
  ∀ i k s, l !! k = Some s → IsHealthy s = true → i + k ∈ healthy_from i l.
Proof.
  induction l as [|x l IH]; intros i k s Hk Hs; [done|].
  destruct k as [|k]; simpl in Hk.
  - injection Hk as ->. simpl. rewrite Hs, Nat.add_0_r. apply list_elem_of_here.
  - replace (i + S k) with (S i + k) by lia.
    pose proof (IH (S i) k s Hk Hs) as Hin.
    simpl. destruct (IsHealthy x); [by apply list_elem_of_further | done].
Qed.

Lemma healthy_from_ge (l : list Server) i j : j ∈ healthy_from i l → i ≤ j.
Proof.
  intros Hin. apply list_elem_of_lookup in Hin as [k Hk].
  by apply healthy_from_lookup in Hk as [? _].
Qed.

Lemma healthy_from_NoDup (l : list Server) : ∀ i, NoDup (healthy_from i l).
Proof.
  induction l as [|x l IH]; intros i; [constructor|].
  simpl. destruct (IsHealthy x); [|apply IH].
  constructor; [|apply IH].
  intros Hin. apply healthy_from_ge in Hin. lia.
Qed.

Lemma healthyServers_elem lb j :
  j ∈ healthyServers lb ↔ ∃ s, servers lb !! j = Some s ∧ IsHealthy s = true.
Proof.
  split.
  - intros Hin. apply list_elem_of_lookup in Hin as [k Hk].
    by eapply healthyServers_healthy.
  - intros (s & Hs & Hup).
    by apply (healthy_from_elem (servers lb) 0 j s).
Qed.

Lemma pick_lookup (hs : list nat) (x : Z) :
  hs ≠ [] →
  hs !! Z.to_nat (x mod Z.of_nat (length hs)) = Some (pick hs x).
Proof.
  intros Hne. unfold pick.
  assert (Hm : (0 < Z.of_nat (length hs))%Z)
    by (destruct hs; [done | simpl; lia]).
  pose proof (Z.mod_pos_bound x _ Hm) as Hb.
  destruct (lookup_lt_is_Some_2 hs (Z.to_nat (x mod Z.of_nat (length hs))))
    as [i Hi]; [lia|].
  by rewrite Hi.
Qed.

Lemma GetNextServer_pick lb :
  healthyServers lb ≠ [] →
  GetNextServer lb
  = (Selected (pick (healthyServers lb) (AddUint64 (current lb) 1)),
     {| servers := servers lb; current := AddUint64 (current lb) 1 |}).
Proof.
  intros Hne. destruct (GetNextServer_nonempty lb Hne) as (i & Hi & ->).
  rewrite pick_lookup in Hi by done. by injection Hi as <-.
Qed.

Lemma AddUint64_assoc c a b :
  AddUint64 (AddUint64 c a) b = AddUint64 c (a + b).
Proof.
  unfold AddUint64. rewrite Z.add_mod_idemp_l by done.
  f_equal. lia.
Qed.

Lemma select_n_pick n :
  ∀ lb,
    healthyServers lb ≠ [] →
    is_uint64 (current lb) →
    select_n n lb
    = ((λ k, Selected (pick (healthyServers lb)
                            (AddUint64 (current lb) (Z.of_nat (S k)))))
         <$> seq 0 n,
       {| servers := servers lb;
          current := AddUint64 (current lb) (Z.of_nat n) |}).
Proof.
  induction n as [|n IH]; intros lb Hne Hc.
  - simpl. destruct lb as [ss c]. cbn [servers current] in *.
    f_equal. f_equal. unfold AddUint64. rewrite Z.add_0_r.
    symmetry. by apply Z.mod_small.
  - cbn [select_n]. rewrite GetNextServer_pick by done.
    rewrite IH; cbn [servers current]; [|done|apply AddUint64_range].
    change (healthyServers {| servers := servers lb;
                              current := AddUint64 (current lb) 1 |})
      with (healthyServers lb).
    rewrite AddUint64_assoc.
    replace (1 + Z.of_nat n)%Z with (Z.of_nat (S n)) by lia.
    f_equal. change (seq 0 (S n)) with (0 :: seq 1 n).
    rewrite fmap_cons, <- (fmap_S_seq 0 n), <- list_fmap_compose.
    f_equal. apply list_fmap_ext. intros _ k _. simpl.
    rewrite AddUint64_assoc. do 3 f_equal. lia.
Qed.

Lemma select_n_pick_no_wrap n :
  ∀ lb,
    healthyServers lb ≠ [] →
    is_uint64 (current lb) →
    (current lb + Z.of_nat n < uint64_modulus)%Z →
    (select_n n lb).1
    = (λ x, Selected (pick (healthyServers lb) x))
        <$> seqZ (current lb + 1) (Z.of_nat n).
Proof.
  induction n as [|n IH]; intros lb Hne Hc Hfit.
  - change (Z.of_nat 0) with 0%Z. by rewrite seqZ_nil by lia.
  - cbn [select_n]. rewrite GetNextServer_pick by done.
    rewrite AddUint64_no_wrap by (unfold is_uint64 in *; lia).
    specialize (IH {| servers := servers lb; current := (current lb + 1)%Z |}).
    cbn [servers current] in IH.
    change (healthyServers {| servers := servers lb;
                              current := (current lb + 1)%Z |})
      with (healthyServers lb) in IH.
    destruct (select_n n _) as [rs lb2]. cbn [fst] in *.
    rewrite IH by (try done; unfold is_uint64 in *; lia).
    rewrite (seqZ_cons (current lb + 1) (Z.of_nat (S n))) by lia.
    replace (Z.pred (Z.of_nat (S n))) with (Z.of_nat n) by lia.
    by replace (Z.succ (current lb + 1)) with (current lb + 1 + 1)%Z by lia.
Qed.

End HealthyIndex.

(** After any number of calls on a registry with a healthy record the
    counter holds the prior value plus the number of calls, reduced modulo
    [2^64]; the registry is as before, and every call returned a record
    that is healthy. *)
Theorem select_n_counter lb n :
  (∃ s, s ∈ servers lb ∧ IsHealthy s = true) →
  is_uint64 (current lb) →
  current (select_n n lb).2 = AddUint64 (current lb) (Z.of_nat n)
  ∧ servers (select_n n lb).2 = servers lb
  ∧ length (select_n n lb).1 = n
  ∧ ∀ r, r ∈ (select_n n lb).1 →
         ∃ i s, r = Selected i ∧ servers lb !! i = Some s
                ∧ IsHealthy s = true.
Proof.
  intros Hex Hc.
  pose proof (healthyServers_nonempty lb Hex) as Hne.
  rewrite (select_n_pick n lb Hne Hc). cbn [fst snd servers current].
  split; [done|]. split; [done|].
  split; [by rewrite length_fmap, length_seq|].
  intros r Hr. apply list_elem_of_fmap in Hr as (k & -> & _).
  pose proof (pick_lookup (healthyServers lb)
                (AddUint64 (current lb) (Z.of_nat (S k))) Hne) as Hp.
  destruct (healthyServers_healthy _ _ _ Hp) as (s & Hs & Hup).
  eexists _, s. by split.
Qed.

Lemma select_n_counter_witness :
  current (select_n 3 only_third_up).2 = AddUint64 (2 ^ 64 - 1) 3
  ∧ servers (select_n 3 only_third_up).2 = servers only_third_up
  ∧ length (select_n 3 only_third_up).1 = 3
  ∧ ∀ r, r ∈ (select_n 3 only_third_up).1 →
         ∃ i s, r = Selected i ∧ servers only_third_up !! i = Some s
                ∧ IsHealthy s = true.
Proof.
  apply (select_n_counter only_third_up 3).
  - exists (mkServer "http://host.docker.internal:8083" true).
    split; [|reflexivity].
    do 2 apply list_elem_of_further. apply list_elem_of_here.
  - unfold is_uint64, uint64_modulus. simpl. lia.
Defined.

Lemma times_selected_absent i rs : Selected i ∉ rs → times_selected i rs = 0.
Proof.
  unfold times_selected. induction rs as [|r rs IH]; intros Hno; [done|].
  apply not_elem_of_cons in Hno as [Hr Hrs].
  rewrite filter_cons, decide_False by done. by apply IH.
Qed.

Section PickCount.

Variable k : Z.
Hypothesis k_pos : (0 < k)%Z.

Variables (g : nat → nat) (i p : nat).
Hypothesis p_lt : (Z.of_nat p < k)%Z.
Hypothesis g_only_p : ∀ q, (Z.of_nat q < k)%Z → g q = i ↔ q = p.

Lemma times_selected_pick_window :
  ∀ (N : nat) (a : Z), (0 ≤ a)%Z →
    Z.of_nat (times_selected i
                ((λ x, Selected (g (Z.to_nat (x mod k))))
                   <$> seqZ a (Z.of_nat N)))
    = (below k (Z.of_nat p) (a + Z.of_nat N) - below k (Z.of_nat p) a)%Z.
Proof using k_pos p_lt g_only_p.
  induction N as [|N IH]; intros a Ha.
  - change (Z.of_nat 0) with 0%Z.
    rewrite Z.add_0_r, seqZ_nil by lia.
    unfold times_selected. rewrite fmap_nil, filter_nil. simpl. lia.
  - rewrite seqZ_cons by lia.
    replace (Z.pred (Z.of_nat (S N))) with (Z.of_nat N) by lia.
    replace (Z.succ a) with (a + 1)%Z by lia.
    rewrite fmap_cons. unfold times_selected in *.
    rewrite filter_cons.
    specialize (IH (a + 1)%Z ltac:(lia)).
    replace (a + 1 + Z.of_nat N)%Z with (a + Z.of_nat (S N))%Z in IH by lia.
    rewrite (below_step k k_pos (Z.of_nat p) a) in IH by lia.
    pose proof (Z.mod_pos_bound a k k_pos) as Hr.
    pose proof (g_only_p (Z.to_nat (a mod k)) ltac:(lia)) as Hg.
    repeat case_decide; cbn [length]; try lia; exfalso.
    all: match goal with
         | H : Selected _ = Selected _ |- _ =>
             injection H as H; apply Hg in H; lia
         | H : Selected _ ≠ Selected _ |- _ =>
             apply H; f_equal; apply Hg; lia
         end.
Qed.

End PickCount.

(** The rotation is even over the records that are healthy, whatever the
    others are: while the counter does not wrap, [N] consecutive calls
    return each healthy record [⌊N/m⌋] or [⌈N/m⌉] times ([m] the number of
    healthy records) and an unhealthy record not at all. *)
Theorem select_n_fair_over_healthy lb N :
  healthy_records lb ≠ [] →
  is_uint64 (current lb) →
  (current lb + Z.of_nat N < uint64_modulus)%Z →
  ∀ j s,
    servers lb !! j = Some s →
    let m := length (healthy_records lb) in
    if IsHealthy s
    then times_selected j (select_n N lb).1 = N / m
         ∨ times_selected j (select_n N lb).1 = (N + m - 1) / m
    else times_selected j (select_n N lb).1 = 0.
Proof.
  intros Hrec Hc Hfit j s Hs m.
  assert (Hlen : length (healthyServers lb) = m)
    by apply healthyServers_length.
  assert (Hne : healthyServers lb ≠ []).
  { intros Hnil. apply Hrec, length_zero_iff_nil. fold m.
    by rewrite <- Hlen, Hnil. }
  assert (Hm : (0 < Z.of_nat m)%Z).
  { rewrite <- Hlen. destruct (healthyServers lb); [done | simpl; lia]. }
  destruct (IsHealthy s) eqn:Hup.
  - assert (Hin : j ∈ healthyServers lb)
      by (apply healthyServers_elem; eauto).
    apply list_elem_of_lookup in Hin as [p Hp].
    pose proof (lookup_lt_Some _ _ _ Hp) as Hplt. rewrite Hlen in Hplt.
    rewrite select_n_pick_no_wrap by done.
    unfold pick. rewrite Hlen.
    pose proof (times_selected_pick_window (Z.of_nat m) Hm
                  (λ q, default 0 (healthyServers lb !! q)) j p
                  ltac:(lia)) as Hcount.
    unfold below in Hcount.
    set (t := (current lb + 1 + Z.of_nat m - 1 - Z.of_nat p)%Z).
    specialize (Hcount
      ltac:(intros q Hq; split;
            [ intros Hg;
              destruct (lookup_lt_is_Some_2 (healthyServers lb) q) as [x Hx];
                [rewrite Hlen; lia|];
              rewrite Hx in Hg; simpl in Hg; subst x;
              exact (proj1 (NoDup_alt _) (healthy_from_NoDup (servers lb) 0)
                           q p j Hx Hp)
            | intros ->; by rewrite Hp ])
      N (current lb + 1)%Z ltac:(unfold is_uint64 in Hc; lia)).
    replace (current lb + 1 + Z.of_nat N + Z.of_nat m - 1 - Z.of_nat p)%Z
      with (t + Z.of_nat N)%Z in Hcount by (subst t; lia).
    fold t in Hcount.
    destruct (below_window_spread (Z.of_nat m) Hm t (Z.of_nat N))
      as [Hd|Hd]; [subst t; unfold is_uint64 in Hc; lia | lia | |].
    + left. apply Nat2Z.inj. rewrite Hcount, Nat2Z.inj_div. exact Hd.
    + right. apply Nat2Z.inj. rewrite Hcount, Nat2Z.inj_div.
      rewrite Hd. f_equal. lia.
  - apply times_selected_absent, select_n_skips_down. by exists s.
Qed.

Lemma select_n_fair_over_healthy_witness :
  let m := length (healthy_records second_down) in
  if IsHealthy (mkServer "http://host.docker.internal:8083" true)
  then times_selected 2 (select_n 5 second_down).1 = 5 / m
       ∨ times_selected 2 (select_n 5 second_down).1 = (5 + m - 1) / m
  else times_selected 2 (select_n 5 second_down).1 = 0.
Proof.
  apply (select_n_fair_over_healthy second_down 5).
  - discriminate.
  - unfold is_uint64, uint64_modulus. simpl. lia.
  - unfold uint64_modulus. simpl. lia.
  - reflexivity.
Defined.

(** While at least two records are healthy and the counter does not wrap,
    two consecutive calls never return the same record. *)
Theorem consecutive_selections_differ lb i lb1 i' lb2 :
  2 ≤ length (healthy_records lb) →
  is_uint64 (current lb) →
  (current lb + 2 < uint64_modulus)%Z →
  GetNextServer lb = (Selected i, lb1) →
  GetNextServer lb1 = (Selected i', lb2) →
  i ≠ i'.
Proof.
  intros Hm Hc Hfit Hget Hget' <-.
  rewrite <- healthyServers_length in Hm.
  assert (Hne : healthyServers lb ≠ [])
    by (destruct (healthyServers lb); [simpl in Hm; lia | done]).
  rewrite GetNextServer_pick in Hget by done.
  rewrite AddUint64_no_wrap in Hget by (unfold is_uint64 in *; lia).
  injection Hget as Hi <-.
  rewrite GetNextServer_pick in Hget' by done.
  cbn [servers current] in Hget'.
  rewrite AddUint64_no_wrap in Hget' by (unfold is_uint64 in *; lia).
  change (healthyServers {| servers := servers lb;
                            current := (current lb + 1)%Z |})
    with (healthyServers lb) in Hget'.
  injection Hget' as Hi'.
  pose proof (pick_lookup (healthyServers lb) (current lb + 1) Hne) as H1.
  pose proof (pick_lookup (healthyServers lb) (current lb + 1 + 1) Hne) as H2.
  rewrite Hi in H1. rewrite Hi' in H2.
  pose proof (proj1 (NoDup_alt _) (healthy_from_NoDup (servers lb) 0)
                _ _ _ H1 H2) as Heq.
  set (m := Z.of_nat (length (healthyServers lb))) in *.
  assert (Hmz : (2 ≤ m)%Z) by (subst m; lia).
  pose proof (Z.mod_pos_bound (current lb + 1) m ltac:(lia)) as Hr.
  pose proof (Z.mod_pos_bound (current lb + 1 + 1) m ltac:(lia)) as Hr'.
  assert (Hstep : ((current lb + 1 + 1) mod m
                   = ((current lb + 1) mod m + 1) mod m)%Z)
    by (by rewrite Z.add_mod_idemp_l by lia).
  assert (Hsame : ((current lb + 1 + 1) mod m = (current lb + 1) mod m)%Z)
    by lia.
  rewrite Hstep in Hsame.
  destruct (Z_lt_le_dec ((current lb + 1) mod m + 1) m) as [Hlt|Hge].
  - rewrite Z.mod_small in Hsame by lia. lia.
  - replace ((current lb + 1) mod m + 1)%Z with m in Hsame by lia.
    rewrite Z_mod_same_full in Hsame. lia.
Qed.

Lemma consecutive_selections_differ_witness :
  (GetNextServer second_down).1 = Selected 2
  ∧ (GetNextServer (GetNextServer second_down).2).1 = Selected 0
  ∧ 2 ≠ 0.
Proof.
  split; [reflexivity|]. split; [reflexivity|].
  apply (consecutive_selections_differ second_down 2
           {| servers := servers second_down; current := 1 |} 0
           {| servers := servers second_down; current := 2 |}).
  - simpl. lia.
  - unfold is_uint64, uint64_modulus. simpl. lia.
  - unfold uint64_modulus. simpl. lia.
  - reflexivity.
  - reflexivity.
Defined.

(** When exactly one record is healthy every call returns that record,
    whatever the counter holds and across its wrap. *)
Theorem sole_survivor_always_selected lb :
  length (healthy_records lb) = 1 →
  is_uint64 (current lb) →
  ∃ j s,
    servers lb !! j = Some s
    ∧ IsHealthy s = true
    ∧ ∀ n, (select_n n lb).1 = replicate n (Selected j).
Proof.
  intros Hone Hc. rewrite <- healthyServers_length in Hone.
  destruct (healthyServers lb) as [|j [|? ?]] eqn:Hhs; try done.
  assert (Hin : j ∈ healthyServers lb) by (rewrite Hhs; apply list_elem_of_here).
  apply healthyServers_elem in Hin as (s & Hs & Hup).
  exists j, s. split; [done|]. split; [done|].
  intros n. rewrite select_n_pick by (by rewrite ?Hhs).
  cbn [fst]. rewrite Hhs.
  rewrite <- (length_seq n 0) at 2. apply const_fmap.
  intros _ k _. unfold pick. cbn [length].
  change (Z.of_nat 1) with 1%Z. by rewrite Z.mod_1_r.
Qed.

Lemma sole_survivor_always_selected_witness :
  ∃ j s,
    servers only_third_up !! j = Some s
    ∧ IsHealthy s = true
    ∧ ∀ n, (select_n n only_third_up).1 = replicate n (Selected j).
Proof.
  apply (sole_survivor_always_selected only_third_up).
  - reflexivity.
  - unfold is_uint64, uint64_modulus. simpl. lia.
Defined.

(** ** The forwarder, for every request *)

(** [ServeHTTP] always writes a response: neither the slice index of
    [GetNextServer] nor the dereference of the selected record can fail,
    whatever the registry, the counter, the request and the network. *)
Theorem ServeHTTP_always_responds relay now r lb :
  is_Some (ServeHTTP relay now r lb).1.1.
Proof.
  unfold ServeHTTP.
  destruct (String.eqb (Path r) "/lb-status"); [by eexists|].
  destruct (decide (healthyServers lb = [])) as [Hnil|Hne].
  { rewrite GetNextServer_empty by done. by eexists. }
  destruct (GetNextServer_nonempty lb Hne) as (i & Hi & ->).
  destruct (healthyServers_healthy _ _ _ Hi) as (s & Hs & _).
  cbn [servers]. rewrite Hs.
  destruct (relay (URL s) r); by eexists.
Qed.

(** A call of [ServeHTTP] makes at most one relay attempt, and only to a
    record that was healthy when the call started; the only flag it can
    write is [false], on the record it relayed to; hence every record that
    is healthy after the call was healthy before it. *)
Theorem ServeHTTP_only_lowers_flags relay now r lb :
  (relays (ServeHTTP relay now r lb).2 = []
   ∨ ∃ i s, relays (ServeHTTP relay now r lb).2 = [i]
            ∧ servers lb !! i = Some s ∧ IsHealthy s = true)
  ∧ (∀ j b, (j, b) ∈ commits (ServeHTTP relay now r lb).2 →
            b = false ∧ relays (ServeHTTP relay now r lb).2 = [j])
  ∧ ∀ j s, servers (ServeHTTP relay now r lb).1.2 !! j = Some s →
           IsHealthy s = true → servers lb !! j = Some s.
Proof.
  unfold ServeHTTP.
  destruct (String.eqb (Path r) "/lb-status").
  { split; [by left|]. split; [|done].
    intros j b Hin. by apply not_elem_of_nil in Hin. }
  pose proof (GetNextServer_servers lb) as Hsv.
  pose proof (GetNextServer_selected lb) as Hsel.
  destruct (GetNextServer lb) as [[i|msg|] lb1]; cbn [snd] in Hsv.
  - destruct (Hsel i lb1 eq_refl) as (s & Hs & Hup).
    rewrite Hsv, Hs.
    destruct (relay (URL s) r); cbn [fst snd].
    + split; [right; by exists i, s|]. split.
      * intros j b Hin. apply list_elem_of_singleton in Hin.
        by injection Hin as -> ->.
      * intros j x Hx Hxup. destruct (decide (i = j)) as [->|Hne].
        -- rewrite set_health_at_lookup, Hsv, Hs in Hx.
           injection Hx as <-. done.
        -- rewrite set_health_at_lookup_ne in Hx by done. by rewrite <- Hsv.
    + split; [right; by exists i, s|]. split.
      * intros j b Hin. by apply not_elem_of_nil in Hin.
      * intros j x Hx _. by rewrite <- Hsv.
  - split; [by left|]. split.
    + intros j b Hin. by apply not_elem_of_nil in Hin.
    + intros j x Hx _. by rewrite <- Hsv.
  - split; [by left|]. split.
    + intros j b Hin. by apply not_elem_of_nil in Hin.
    + intros j x Hx _. by rewrite <- Hsv.
Qed.

Lemma ServeHTTP_only_lowers_flags_witness :
  servers NewLoadBalancer !! 0
  = Some (mkServer "http://host.docker.internal:8081" true).
Proof.
  destruct (ServeHTTP_only_lowers_flags relay_refused 0 get_users
              NewLoadBalancer) as (_ & _ & Hkeep).
  apply (Hkeep 0 (mkServer "http://host.docker.internal:8081" true));
    reflexivity.
Defined.

(** Requests whose relays complete are routed exactly as the selector
    rotates: the relay targets of the run are the records returned by as
    many consecutive calls of [GetNextServer], the state reached is the
    same, and no flag is written. *)
Theorem requests_follow_rotation ops :
  ∀ lb,
    Forall relayed_ok ops →
    relays (run ops lb).2
    = omap selected_index (select_n (length ops) lb).1
    ∧ (run ops lb).1 = (select_n (length ops) lb).2
    ∧ commits (run ops lb).2 = [].
Proof.
  induction ops as [|op ops IH]; intros lb Hok; [done|].
  apply Forall_cons in Hok as [Hop Hops].
  destruct op as [| | |relay now r]; try done.
  destruct Hop as [Hp Hrel].
  rewrite run_cons. cbn [length select_n step].
  pose proof (GetNextServer_servers lb) as Hsv.
  pose proof (GetNextServer_selected lb) as Hsel.
  assert (Hserve :
    let '(resp, lb', t) := ServeHTTP relay now r lb in
    lb' = (GetNextServer lb).2
    ∧ relays t = omap selected_index [(GetNextServer lb).1]
    ∧ commits t = []).
  { unfold ServeHTTP. apply String.eqb_neq in Hp. rewrite Hp.
    destruct (GetNextServer lb) as [[i|msg|] lb1]; cbn [fst snd] in *;
      try done.
    destruct (Hsel i lb1 eq_refl) as (s & Hs & _). rewrite Hsv, Hs.
    destruct (Hrel (URL s)) as [resp ->]. done. }
  destruct (ServeHTTP relay now r lb) as [[resp lb'] t].
  destruct Hserve as (-> & Hr & Hc).
  destruct (GetNextServer lb) as [sel lb1]. cbn [fst snd] in *.
  destruct (IH lb1 Hops) as (IHr & IHs & IHc).
  destruct (select_n (length ops) lb1) as [rs lb2]. cbn [fst snd] in *.
  unfold relays, commits in *. rewrite !omap_app.
  rewrite Hr, Hc, IHr, IHc, IHs. split; [|done].
  by destruct sel.
Qed.

Lemma requests_follow_rotation_witness :
  relays (run [OpServe relay_backend_error 0 get_users;
               OpServe relay_backend_error 1 get_users] second_down).2
  = omap selected_index (select_n 2 second_down).1
  ∧ (run [OpServe relay_backend_error 0 get_users;
          OpServe relay_backend_error 1 get_users] second_down).1
    = (select_n 2 second_down).2
  ∧ commits (run [OpServe relay_backend_error 0 get_users;
                  OpServe relay_backend_error 1 get_users] second_down).2
    = [].
Proof.
  apply (requests_follow_rotation
           [OpServe relay_backend_error 0 get_users;
            OpServe relay_backend_error 1 get_users] second_down).
  repeat constructor; try discriminate; intros url; by eexists.
Defined.

(** ** The health flag as a state cell *)

(** [SetHealth] followed by [IsHealthy] on the same record reads the value
    written; the endpoint of the record, the other records and the counter
    are untouched; a second write replaces the first, and writes to
    different records commute. *)
Theorem SetHealth_IsHealthy_round_trip i b lb s :
  servers lb !! i = Some s →
  IsHealthy <$> servers (set_health_at i b lb) !! i = Some b
  ∧ URL <$> servers (set_health_at i b lb) !! i = Some (URL s)
  ∧ (∀ j, j ≠ i → servers (set_health_at i b lb) !! j = servers lb !! j)
  ∧ current (set_health_at i b lb) = current lb
  ∧ (∀ b', set_health_at i b' (set_health_at i b lb) = set_health_at i b' lb)
  ∧ ∀ j b', j ≠ i →
      set_health_at j b' (set_health_at i b lb)
      = set_health_at i b (set_health_at j b' lb).
Proof.
  intros Hs.
  split; [by rewrite set_health_at_lookup, Hs|].
  split; [by rewrite set_health_at_lookup, Hs|].
  split; [intros j Hj; by apply set_health_at_lookup_ne|].
  split; [done|]. split.
  - intros b'. unfold set_health_at. cbn [servers current]. f_equal.
    rewrite list_alter_alter_eq. by apply list_alter_ext.
  - intros j b' Hj. unfold set_health_at. cbn [servers current]. f_equal.
    by apply list_alter_alter_ne.
Qed.

Lemma SetHealth_IsHealthy_round_trip_witness :
  IsHealthy <$> servers (set_health_at 2 false NewLoadBalancer) !! 2
  = Some false.
Proof.
  destruct (SetHealth_IsHealthy_round_trip 2 false NewLoadBalancer
              (mkServer "http://host.docker.internal:8083" true) eq_refl)
    as [Hread _].
  exact Hread.
Defined.

(** ** The monitor, cycle after cycle *)

Section MonitorFrame.

Variable probe : Prober.

Lemma check_record_probes i s :
  probes_issued (check_record probe i s).2 = [probe_target s].
Proof.
  unfold check_record.
  destruct (probe i (probe_target s)); [by destruct (IsHealthy s)|done].
Qed.

Lemma check_record_sleeps i s : sleeps (check_record probe i s).2 = [].
Proof.
  unfold check_record.
  destruct (probe i (probe_target s)); [by destruct (IsHealthy s)|done].
Qed.

Lemma HealthCheck_cycle_probes lb :
  probes_issued (HealthCheck_cycle probe lb).2 = probe_target <$> servers lb.
Proof.
  rewrite HealthCheck_cycle_trace. unfold probes_issued.
  cbn [omap list_omap probe_of]. rewrite omap_app. simpl.
  rewrite app_nil_r, omap_mjoin_imap.
  rewrite <- imap_const.
  etrans; [|apply mjoin_imap_singleton]. f_equal.
  apply imap_ext. intros i s _. apply check_record_probes.
Qed.

Lemma HealthCheck_cycle_sleeps lb : sleeps (HealthCheck_cycle probe lb).2 = [30%Z].
Proof.
  rewrite HealthCheck_cycle_trace. unfold sleeps.
  cbn [omap list_omap sleep_of]. rewrite omap_app. simpl.
  rewrite omap_mjoin_imap.
  rewrite <- (app_nil_l [30%Z]) at 2. f_equal.
  etrans; [|apply (mjoin_imap_nil (servers lb))]. f_equal.
  apply imap_ext. intros i s _. apply check_record_sleeps.
Qed.

Lemma HealthCheck_cycle_by_endpoints lb1 lb2 :
  endpoints lb1 = endpoints lb2 →
  servers (HealthCheck_cycle probe lb1).1
  = servers (HealthCheck_cycle probe lb2).1.
Proof.
  unfold endpoints. intros He. rewrite !HealthCheck_cycle_servers.
  apply list_eq. intros i. rewrite !list_lookup_imap.
  assert (Hi : URL <$> servers lb1 !! i = URL <$> servers lb2 !! i)
    by (by rewrite <- !list_lookup_fmap, He).
  destruct (servers lb1 !! i) as [s1|], (servers lb2 !! i) as [s2|];
    simpl in *; try done.
  injection Hi as Hu. unfold SetHealth, probe_target. by rewrite Hu.
Qed.

End MonitorFrame.

(** A monitor cycle issues exactly one GET per record, to the record's
    endpoint followed by [/health], in registry order; it makes no relay
    attempt, sleeps 30 seconds once, and leaves the rotation counter and
    the endpoints as they were. *)
Theorem HealthCheck_cycle_probes_each_once (probe : Prober) lb :
  probes_issued (HealthCheck_cycle probe lb).2
  = (λ s, URL s +:+ "/health") <$> servers lb
  ∧ relays (HealthCheck_cycle probe lb).2 = []
  ∧ sleeps (HealthCheck_cycle probe lb).2 = [30%Z]
  ∧ current (HealthCheck_cycle probe lb).1 = current lb
  ∧ endpoints (HealthCheck_cycle probe lb).1 = endpoints lb.
Proof.
  split; [apply HealthCheck_cycle_probes|].
  split; [apply HealthCheck_cycle_relays|].
  split; [apply HealthCheck_cycle_sleeps|].
  split; [apply HealthCheck_cycle_current | apply HealthCheck_cycle_endpoints].
Qed.

(** However many cycles the monitor has run, and whatever the probes
    returned, the rotation counter is where the selector left it, no
    request was relayed by the monitor, and the number of probes issued is
    the number of cycles times the number of records. *)
Theorem HealthCheck_never_moves_counter (probes : list Prober) :
  ∀ lb,
    current (HealthCheck probes lb).1 = current lb
    ∧ endpoints (HealthCheck probes lb).1 = endpoints lb
    ∧ relays (HealthCheck probes lb).2 = []
    ∧ length (probes_issued (HealthCheck probes lb).2)
      = length probes * length (servers lb)
    ∧ sleeps (HealthCheck probes lb).2 = replicate (length probes) 30%Z.
Proof.
  induction probes as [|p ps IH]; intros lb; [done|].
  cbn [HealthCheck].
  pose proof (HealthCheck_cycle_current p lb) as Hc.
  pose proof (HealthCheck_cycle_endpoints p lb) as He.
  pose proof (HealthCheck_cycle_relays p lb) as Hr.
  pose proof (HealthCheck_cycle_probes p lb) as Hp.
  pose proof (HealthCheck_cycle_sleeps p lb) as Hs.
  destruct (HealthCheck_cycle p lb) as [lb1 t1]. cbn [fst snd] in *.
  destruct (IH lb1) as (IHc & IHe & IHr & IHp & IHs).
  destruct (HealthCheck ps lb1) as [lb2 t2]. cbn [fst snd] in *.
  unfold relays, probes_issued, sleeps in *. rewrite !omap_app.
  rewrite IHc, Hc, IHe, He, Hr, IHr, Hs, IHs.
  repeat split; try done.
  rewrite length_app, Hp, IHp, length_fmap.
  rewrite (endpoints_length lb1 lb He). cbn [length]. lia.
Qed.

(** A monitor cycle overwrites every flag: the registry it leaves depends
    on the endpoints and on the probe outcomes only, not on the flags that
    earlier cycles or relay failures had set. *)
Theorem HealthCheck_cycle_overwrites_flags (probe : Prober) lb1 lb2 :
  endpoints lb1 = endpoints lb2 →
  servers (HealthCheck_cycle probe lb1).1
  = servers (HealthCheck_cycle probe lb2).1.
Proof. apply HealthCheck_cycle_by_endpoints. Qed.

Lemma HealthCheck_cycle_overwrites_flags_witness :
  servers (HealthCheck_cycle second_unreachable all_down).1
  = servers (HealthCheck_cycle second_unreachable NewLoadBalancer).1.
Proof.
  apply (HealthCheck_cycle_overwrites_flags second_unreachable
           all_down NewLoadBalancer).
  reflexivity.
Defined.

(** On a network that answers the same way in two consecutive cycles, the
    second cycle leaves the registry as the first did and logs no
    transition line. *)
Theorem stable_network_second_cycle_quiet (probe : Prober) lb :
  let lb1 := (HealthCheck_cycle probe lb).1 in
  servers (HealthCheck_cycle probe lb1).1 = servers lb1
  ∧ ∀ l, l ∈ log_lines (HealthCheck_cycle probe lb1).2 →
         is_transition l = false.
Proof.
  cbv zeta. split.
  - rewrite <- (HealthCheck_cycle_by_endpoints probe lb
                  (HealthCheck_cycle probe lb).1);
      [done | by rewrite HealthCheck_cycle_endpoints].
  - intros l Hl. rewrite HealthCheck_cycle_log_lines in Hl.
    apply elem_of_cons in Hl as [->|Hl]; [done|].
    apply list_elem_of_join in Hl as (ls & Hl & Hls).
    apply elem_of_lookup_imap_1 in Hls as (i & s & -> & Hs).
    destruct (flag_after_cycle probe lb i s Hs) as (s0 & _ & Hurl & Hflag).
    assert (Htarget : probe_target s = probe_target s0)
      by (unfold probe_target; by rewrite Hurl).
    rewrite check_record_log_same in Hl by (by rewrite Htarget).
    destruct (probe i (probe_target s)).
    + by apply not_elem_of_nil in Hl.
    + by apply list_elem_of_singleton in Hl as ->.
Qed.

(** After a monitor cycle the selector returns only records whose probe
    was answered with status 200 in that cycle, and it succeeds exactly
    when some probe was. *)
Theorem selection_after_cycle (probe : Prober) lb :
  (∀ i lb', GetNextServer (HealthCheck_cycle probe lb).1 = (Selected i, lb') →
            ∃ s, servers lb !! i = Some s
                 ∧ probe i (probe_target s) = ProbeStatus 200)
  ∧ ((∃ i s, servers lb !! i = Some s
             ∧ probe i (probe_target s) = ProbeStatus 200)
     ↔ ∃ i lb', GetNextServer (HealthCheck_cycle probe lb).1
                = (Selected i, lb')).
Proof.
  assert (Hflag : ∀ i s', servers (HealthCheck_cycle probe lb).1 !! i = Some s' →
            ∃ s, servers lb !! i = Some s
                 ∧ IsHealthy s' = classify (probe i (probe_target s))).
  { intros i s' Hs'.
    destruct (flag_after_cycle probe lb i s' Hs') as (s & Hs & _ & Hf).
    by exists s. }
  assert (Hok : ∀ res, classify res = true ↔ res = ProbeStatus 200).
  { intros [|code]; simpl; [done|]. rewrite Z.eqb_eq.
    split; [by intros -> | by intros [= ->]]. }
  assert (Hsel : ∀ i lb',
            GetNextServer (HealthCheck_cycle probe lb).1 = (Selected i, lb') →
            ∃ s, servers lb !! i = Some s
                 ∧ probe i (probe_target s) = ProbeStatus 200).
  { intros i lb' Hget.
    apply GetNextServer_selected in Hget as (s' & Hs' & Hup).
    destruct (Hflag i s' Hs') as (s & Hs & Hf).
    exists s. split; [done|]. apply Hok. by rewrite <- Hf. }
  split; [done|]. split.
  - intros (i & s & Hs & Hres).
    destruct (GetNextServer_nonempty (HealthCheck_cycle probe lb).1)
      as (i' & _ & Hget); [|by eauto].
    apply healthyServers_nonempty.
    exists (SetHealth (classify (probe i (probe_target s))) s). split.
    + apply list_elem_of_lookup. exists i.
      by rewrite HealthCheck_cycle_servers, list_lookup_imap, Hs.
    + by rewrite Hres.
  - intros (i & lb' & Hget). destruct (Hsel i lb' Hget) as (s & ? & ?).
    by exists i, s.
Qed.

Lemma selection_after_cycle_witness :
  ∃ i lb', GetNextServer (HealthCheck_cycle second_unreachable all_down).1
           = (Selected i, lb').
Proof.
  destruct (selection_after_cycle second_unreachable all_down) as [_ Hiff].
  apply Hiff.
  exists 0, (mkServer "http://host.docker.internal:8081" false).
  split; reflexivity.
Defined.

(** ** Configuration lookup *)

(** [getEnv] returns the variable's value when it is set and not empty,
    and the default otherwise: a variable set to the empty string counts
    as unset.  With a non-empty default the result is never empty.
    Setting a variable to a non-empty value makes [getEnv] return it for
    that key and changes nothing for any other key. *)
Theorem getEnv_falls_back (env : gmap string string) (key d : string) :
  (∀ v, env !! key = Some v → v ≠ EmptyString → getEnv env key d = v)
  ∧ (env !! key = None ∨ env !! key = Some EmptyString → getEnv env key d = d)
  ∧ (d ≠ EmptyString → getEnv env key d ≠ EmptyString)
  ∧ ∀ k v, v ≠ EmptyString →
      getEnv (<[k := v]> env) key d
      = if decide (k = key) then v else getEnv env key d.
Proof.
  unfold getEnv, Getenv. repeat split.
  - intros v Hv Hne. rewrite Hv. simpl.
    apply String.eqb_neq in Hne. by rewrite Hne.
  - intros [Hv|Hv]; by rewrite Hv.
  - intros Hd. destruct (env !! key) as [v|]; simpl; [|done].
    destruct (String.eqb_spec v EmptyString); simpl; done.
  - intros k v Hne. case_decide as Hk.
    + subst k. rewrite lookup_insert_eq. simpl.
      apply String.eqb_neq in Hne. by rewrite Hne.
    + by rewrite lookup_insert_ne.
Qed.

Lemma getEnv_falls_back_witness :
  getEnv container_env "PORT" "8080" = "8080"
  ∧ getEnv ∅ "INSTANCE_NAME" "Go-Unknown-Name" = "Go-Unknown-Name".
Proof.
  split.
  - destruct (getEnv_falls_back container_env "PORT" "8080") as (Hset & _).
    apply Hset; [reflexivity | discriminate].
  - destruct (getEnv_falls_back ∅ "INSTANCE_NAME" "Go-Unknown-Name")
      as (_ & Hunset & _).
    apply Hunset. by left.
Defined.

Lemma stable_network_second_cycle_quiet_witness :
  is_transition (LogStillUp "http://host.docker.internal:8081") = false.
Proof.
  destruct (stable_network_second_cycle_quiet second_unreachable
              NewLoadBalancer) as [_ Hquiet].
  apply Hquiet. apply list_elem_of_further, list_elem_of_here.
Defined.

(** ** Outages *)

Section Outage.

Lemma filter_alter_lowers {A} (P : A → Prop) `{∀ x, Decision (P x)}
    (f : A → A) (l : list A) :
  ∀ i x, l !! i = Some x → P x → ¬ P (f x) →
    length (filter P (alter f i l)) + 1 = length (filter P l).
Proof.
  induction l as [|y l IH]; intros i x Hi Hx Hfx; [done|].
  destruct i as [|i]; simpl in Hi.
  - injection Hi as ->. cbn [alter list_alter].
    rewrite !filter_cons.
    repeat case_decide; try done. cbn [length]. lia.
  - cbn [alter list_alter]. rewrite !filter_cons.
    specialize (IH i x Hi Hx Hfx).
    change (list_alter f i l) with (alter f i l).
    case_decide; cbn [length]; lia.
Qed.

Lemma run_app ops1 ops2 lb :
  run (ops1 ++ ops2) lb
  = ((run ops2 (run ops1 lb).1).1,
     (run ops1 lb).2 ++ (run ops2 (run ops1 lb).1).2).
Proof.
  revert lb. induction ops1 as [|op ops1 IH]; intros lb.
  - simpl. by destruct (run ops2 lb).
  - rewrite <- app_comm_cons, !run_cons, IH. cbn [fst snd].
    by rewrite app_assoc.
Qed.

Lemma ServeHTTP_relay_failed relay now r lb :
  Path r ≠ "/lb-status" →
  healthy_records lb ≠ [] →
  (∀ url, relay url r = RelayFailed) →
  ∃ i, relays (ServeHTTP relay now r lb).2 = [i]
       ∧ length (healthy_records (ServeHTTP relay now r lb).1.2) + 1
         = length (healthy_records lb).
Proof.
  intros Hp Hrec Hfail.
  assert (Hne : healthyServers lb ≠ []).
  { intros Hnil. apply Hrec, length_zero_iff_nil.
    by rewrite <- healthyServers_length, Hnil. }
  destruct (GetNextServer_nonempty lb Hne) as (i & Hi & Hget).
  destruct (healthyServers_healthy _ _ _ Hi) as (s & Hs & Hup).
  rewrite (ServeHTTP_relayed relay now r lb i _ s Hp Hget Hs), Hfail.
  exists i. split; [done|]. cbn [fst snd].
  unfold healthy_records, set_health_at. cbn [servers].
  by apply (filter_alter_lowers _ _ _ i s).
Qed.

End Outage.

(** When no probe of a cycle is answered with status 200, every request
    that follows on a path other than the status path is answered 503
    without a relay attempt, and leaves the balancer as the cycle left
    it. *)
Theorem outage_after_cycle (probe : Prober) lb relay now r :
  (∀ i s, servers lb !! i = Some s →
          probe i (probe_target s) ≠ ProbeStatus 200) →
  Path r ≠ "/lb-status" →
  ServeHTTP relay now r (HealthCheck_cycle probe lb).1
  = (Some {| StatusCode := 503;
             ContentType := "text/plain; charset=utf-8";
             Body := PlainText
               ("Service Unavailable: no healthy servers available"
                +:+ newline) |},
     (HealthCheck_cycle probe lb).1, []).
Proof.
  intros Hno Hp.
  change {| StatusCode := 503;
            ContentType := "text/plain; charset=utf-8";
            Body := PlainText
              ("Service Unavailable: no healthy servers available"
               +:+ newline) |}
    with (http_Error "Service Unavailable: no healthy servers available"
                     StatusServiceUnavailable).
  apply ServeHTTP_unavailable; [done|].
  apply healthy_from_all_false. rewrite HealthCheck_cycle_servers.
  apply Forall_lookup. intros i s' Hs'.
  rewrite list_lookup_imap in Hs'.
  destruct (servers lb !! i) as [s|] eqn:Hs; [|done].
  injection Hs' as <-. unfold IsHealthy, SetHealth. cbn [Healthy].
  specialize (Hno i s Hs).
  destruct (probe i (probe_target s)) as [|code]; [done|].
  simpl. apply Z.eqb_neq. intros ->. by apply Hno.
Qed.

Lemma outage_after_cycle_witness :
  ServeHTTP relay_backend_error 0 get_users
    (HealthCheck_cycle (λ _ _, ProbeStatus 500) NewLoadBalancer).1
  = (Some {| StatusCode := 503;
             ContentType := "text/plain; charset=utf-8";
             Body := PlainText
               ("Service Unavailable: no healthy servers available"
                +:+ newline) |},
     (HealthCheck_cycle (λ _ _, ProbeStatus 500) NewLoadBalancer).1, []).
Proof.
  apply (outage_after_cycle (λ _ _, ProbeStatus 500) NewLoadBalancer
           relay_backend_error 0 get_users).
  - intros i s _. discriminate.
  - discriminate.
Defined.

(** A request to the status path can be inserted anywhere in a run of
    operations without changing the state reached or the effects
    performed by the run. *)
Theorem status_polling_invisible ops1 ops2 relay now r lb :
  Path r = "/lb-status" →
  run (ops1 ++ OpServe relay now r :: ops2) lb = run (ops1 ++ ops2) lb.
Proof.
  intros Hp. rewrite !run_app, run_cons. cbn [step].
  rewrite ServeHTTP_status by done. cbn [fst snd].
  by rewrite app_nil_l.
Qed.

Lemma status_polling_invisible_witness :
  run ([OpServe relay_backend_error 0 get_users]
         ++ OpServe relay_refused 1 get_status
         :: [OpServe relay_backend_error 2 get_users]) NewLoadBalancer
  = run ([OpServe relay_backend_error 0 get_users]
           ++ [OpServe relay_backend_error 2 get_users]) NewLoadBalancer.
Proof.
  apply (status_polling_invisible
           [OpServe relay_backend_error 0 get_users]
           [OpServe relay_backend_error 2 get_users]
           relay_refused 1 get_status NewLoadBalancer).
  reflexivity.
Defined.

(** Each request whose relay fails takes exactly one record out of the
    healthy set, so in a run of such requests the backends are contacted
    at most once per record that was healthy at the start; the requests
    beyond that are answered without a relay attempt. *)
Theorem failing_relays_bounded ops :
  ∀ lb,
    Forall relay_fails ops →
    length (relays (run ops lb).2) = length ops `min` length (healthy_records lb)
    ∧ length (healthy_records (run ops lb).1)
      = length (healthy_records lb) - length ops.
Proof.
  induction ops as [|op ops IH]; intros lb Hall.
  { simpl. split; [done | lia]. }
  apply Forall_cons in Hall as [Hop Hops].
  destruct op as [| | |relay now r]; try done.
  destruct Hop as [Hp Hfail].
  rewrite run_cons. cbn [step length fst snd].
  assert (Hstep :
    length (relays (ServeHTTP relay now r lb).2)
    = 1 `min` length (healthy_records lb)
    ∧ length (healthy_records (ServeHTTP relay now r lb).1.2)
      = length (healthy_records lb) - 1).
  { destruct (decide (healthy_records lb = [])) as [Hnil|Hrec].
    - rewrite ServeHTTP_unavailable; [cbn [fst snd]; by rewrite Hnil|done|].
      apply length_zero_iff_nil.
      by rewrite healthyServers_length, Hnil.
    - destruct (ServeHTTP_relay_failed relay now r lb Hp Hrec Hfail)
        as (i & -> & Hlen).
      destruct (healthy_records lb); [done|]. simpl in *. lia. }
  destruct (ServeHTTP relay now r lb) as [[resp lb1] t1].
  cbn [fst snd] in *. destruct Hstep as [Hr1 Hh1].
  destruct (IH lb1 Hops) as [IHr IHh].
  unfold relays in *. rewrite omap_app, length_app.
  rewrite Hr1, IHr, IHh, Hh1. lia.
Qed.

Lemma failing_relays_bounded_witness :
  length (relays (run [OpServe relay_refused 0 get_users;
                       OpServe relay_refused 1 get_users;
                       OpServe relay_refused 2 get_users] second_down).2)
  = 3 `min` length (healthy_records second_down)
  ∧ length (healthy_records
              (run [OpServe relay_refused 0 get_users;
                    OpServe relay_refused 1 get_users;
                    OpServe relay_refused 2 get_users] second_down).1)
    = length (healthy_records second_down) - 3.
Proof.
  apply (failing_relays_bounded
           [OpServe relay_refused 0 get_users;
            OpServe relay_refused 1 get_users;
            OpServe relay_refused 2 get_users] second_down).
  repeat constructor; discriminate.
Defined.
